(** * Zephyr Coaching: the realtime audio session of [src/App.tsx]

    A shallow embedding of the React component [App] of [src/App.tsx] and of
    the types of [src/types.ts]: the refs and state hooks of the component are
    the fields of one record, every callback of the component is a function on
    that record, and the browser objects the component holds handles to (audio
    source nodes, audio contexts, the live session, microphone streams) live in
    an explicit store, so that what the callbacks do to them can be observed.

    Conventions.
    - JavaScript strings are sequences of UTF-16 code units ([list N]).
    - JavaScript numbers that carry time on the output clock
      ([AudioContext.currentTime], [AudioBuffer.duration]) are exact rationals
      ([Q]); the readings of [Date.now()] are integers ([Z]).
    - [onmessage] is an async function with one [await]: it is given in two
      halves, before and after the [await], composed into one run in
      [onmessage] and left apart in the section on overlapping handlers.
    - [handleStartSession] is an async function too: its part before the
      [await] of [getUserMedia] and its part after it are given apart,
      composed in [handleStartSession] and interleaved with the other
      callbacks in [occur].
    - [console.error] is not modelled. *)

From Stdlib Require Import ZArith QArith Qminmax Lqa Lia.
From Stdlib Require Import DecimalString DecimalZ.
From stdpp Require Import base gmap sets list strings.

#[local] Set Warnings "-clear-no-such-hyp".

Open Scope Q_scope.

(** ** JavaScript strings *)

Module JS.

(** A string is its sequence of UTF-16 code units. *)
Definition jsstring := list N.

(** A literal of the source, written in ASCII. *)
Definition lit (s : string) : jsstring :=
  Ascii.N_of_ascii <$> String.list_ascii_of_string s.

(** Truthiness of a string: every string but the empty one. *)
Definition truthy (s : jsstring) : bool :=
  match s with
  | [] => false
  | _ :: _ => true
  end.

(** ECMAScript [WhiteSpace] and [LineTerminator] code points; all of them
    are in the basic plane, so each is one code unit. *)
Definition isWhiteSpace (c : N) : bool :=
  ((c =? 9) || (c =? 10) || (c =? 11) || (c =? 12) || (c =? 13) || (c =? 32)
   || (c =? 160) || (c =? 5760) || ((8192 <=? c) && (c <=? 8202))
   || (c =? 8232) || (c =? 8233) || (c =? 8239) || (c =? 8287)
   || (c =? 12288) || (c =? 65279))%N.

Fixpoint trimStart (s : jsstring) : jsstring :=
  match s with
  | [] => []
  | c :: s' => if isWhiteSpace c then trimStart s' else s
  end.

Definition trimEnd (s : jsstring) : jsstring :=
  reverse (trimStart (reverse s)).

(** [String.prototype.trim]. *)
Definition trim (s : jsstring) : jsstring := trimEnd (trimStart s).

(** The decimal text of an integer number, as a template literal prints it. *)
Definition ofInteger (z : Z) : jsstring :=
  lit (NilZero.string_of_int (Z.to_int z)).

End JS.

Export JS.

(** ** [src/types.ts] *)

Inductive SessionStatus := IDLE | CONNECTING | ACTIVE | ERROR.

Inductive Role := user | model.

Record ChatMessage := {
  id : jsstring;
  role : Role;
  text : jsstring;
  timestamp : Z
}.

#[export] Instance SessionStatus_eq_dec : EqDecision SessionStatus.
Proof. solve_decision. Defined.

#[export] Instance Role_eq_dec : EqDecision Role.
Proof. solve_decision. Defined.

(** ** The inbound message ([LiveServerMessage] of the client library)

    Only the fields that [onmessage] reads.  An optional object is an
    [option]; an optional flag is a [bool] (absent and false are both
    falsy); [parts] is an array and the [text] of a transcription a
    string, as the inbound contract has them. *)

Record Transcription := { tr_text : jsstring }.

Record Blob := { data : option jsstring }.

Record Part := { inlineData : option Blob }.

Record Content := { parts : list Part }.

Record ServerContent := {
  inputTranscription : option Transcription;
  outputTranscription : option Transcription;
  turnComplete : bool;
  modelTurn : option Content;
  interrupted : bool
}.

Record LiveServerMessage := { serverContent : option ServerContent }.

(** ** Browser objects *)

(** An [AudioBuffer]: [duration] is its length in sample frames over its
    sample rate. *)
Record AudioBuffer := {
  ab_length : N;
  ab_sampleRate : positive
}.

Definition duration (b : AudioBuffer) : Q :=
  Z.of_N (ab_length b) # ab_sampleRate b.

(** The life of an [AudioBufferSourceNode]: created, started (playing or
    waiting for its start time), then ended by itself or stopped. *)
Inductive PlayState := Created | Started | Ended | Stopped.

#[export] Instance PlayState_eq_dec : EqDecision PlayState.
Proof. solve_decision. Defined.

Record SourceNode := {
  sn_buffer : AudioBuffer;
  sn_when : Q;           (* the argument of [start] *)
  sn_state : PlayState
}.

(** [source.start(when)]: an exception when called twice. *)
Definition node_start (when : Q) (n : SourceNode) : option SourceNode :=
  match sn_state n with
  | Created => Some {| sn_buffer := sn_buffer n; sn_when := when; sn_state := Started |}
  | _ => None
  end.

(** [source.stop()]: an exception before [start]; no effect on a node that
    has ended or was stopped already. *)
Definition node_stop (n : SourceNode) : option SourceNode :=
  match sn_state n with
  | Created => None
  | Started => Some {| sn_buffer := sn_buffer n; sn_when := sn_when n; sn_state := Stopped |}
  | Ended | Stopped => Some n
  end.

(** The node reaches the end of its buffer: the browser marks it ended (and
    would fire [ended] at it). *)
Definition node_end (n : SourceNode) : SourceNode :=
  match sn_state n with
  | Started => {| sn_buffer := sn_buffer n; sn_when := sn_when n; sn_state := Ended |}
  | _ => n
  end.

(** The moment the node's buffer runs out, on the output clock. *)
Definition node_finish (n : SourceNode) : Q := sn_when n + duration (sn_buffer n).

(** The objects the component creates, by handle (the index in each list):
    source nodes, the number of [close()] calls each audio context and each
    live session has received, the number of microphone streams acquired
    (nothing in the component ever stops one), and the number of alerts
    shown. *)
Record Browser := {
  nodes : list SourceNode;
  contexts : list nat;
  sessions : list nat;
  mediaStreams : nat;
  alerts : nat
}.

Record TranscriptionBuffer := { tb_user : jsstring; tb_model : jsstring }.

(** ** The component *)

Record App := {
  status : SessionStatus;                       (* useState *)
  messages : list ChatMessage;                  (* useState *)
  sessionRef : option nat;
  audioContextsRef : option (nat * nat);        (* input, output *)
  sourcesRef : gset nat;
  nextStartTimeRef : Q;
  transcriptionBufferRef : TranscriptionBuffer;
  browser : Browser
}.

Definition initial : App := {|
  status := IDLE;
  messages := [];
  sessionRef := None;
  audioContextsRef := None;
  sourcesRef := ∅;
  nextStartTimeRef := 0;
  transcriptionBufferRef := {| tb_user := []; tb_model := [] |};
  browser := {| nodes := []; contexts := []; sessions := []; mediaStreams := 0; alerts := 0 |}
|}.

(** Field updates. *)
Definition set_status (v : SessionStatus) (s : App) : App :=
  {| status := v; messages := messages s; sessionRef := sessionRef s;
     audioContextsRef := audioContextsRef s; sourcesRef := sourcesRef s;
     nextStartTimeRef := nextStartTimeRef s;
     transcriptionBufferRef := transcriptionBufferRef s; browser := browser s |}.

Definition set_messages (v : list ChatMessage) (s : App) : App :=
  {| status := status s; messages := v; sessionRef := sessionRef s;
     audioContextsRef := audioContextsRef s; sourcesRef := sourcesRef s;
     nextStartTimeRef := nextStartTimeRef s;
     transcriptionBufferRef := transcriptionBufferRef s; browser := browser s |}.

Definition set_sessionRef (v : option nat) (s : App) : App :=
  {| status := status s; messages := messages s; sessionRef := v;
     audioContextsRef := audioContextsRef s; sourcesRef := sourcesRef s;
     nextStartTimeRef := nextStartTimeRef s;
     transcriptionBufferRef := transcriptionBufferRef s; browser := browser s |}.

Definition set_audioContextsRef (v : option (nat * nat)) (s : App) : App :=
  {| status := status s; messages := messages s; sessionRef := sessionRef s;
     audioContextsRef := v; sourcesRef := sourcesRef s;
     nextStartTimeRef := nextStartTimeRef s;
     transcriptionBufferRef := transcriptionBufferRef s; browser := browser s |}.

Definition set_sourcesRef (v : gset nat) (s : App) : App :=
  {| status := status s; messages := messages s; sessionRef := sessionRef s;
     audioContextsRef := audioContextsRef s; sourcesRef := v;
     nextStartTimeRef := nextStartTimeRef s;
     transcriptionBufferRef := transcriptionBufferRef s; browser := browser s |}.

Definition set_nextStartTimeRef (v : Q) (s : App) : App :=
  {| status := status s; messages := messages s; sessionRef := sessionRef s;
     audioContextsRef := audioContextsRef s; sourcesRef := sourcesRef s;
     nextStartTimeRef := v;
     transcriptionBufferRef := transcriptionBufferRef s; browser := browser s |}.

Definition set_transcriptionBufferRef (v : TranscriptionBuffer) (s : App) : App :=
  {| status := status s; messages := messages s; sessionRef := sessionRef s;
     audioContextsRef := audioContextsRef s; sourcesRef := sourcesRef s;
     nextStartTimeRef := nextStartTimeRef s;
     transcriptionBufferRef := v; browser := browser s |}.

Definition set_browser (v : Browser) (s : App) : App :=
  {| status := status s; messages := messages s; sessionRef := sessionRef s;
     audioContextsRef := audioContextsRef s; sourcesRef := sourcesRef s;
     nextStartTimeRef := nextStartTimeRef s;
     transcriptionBufferRef := transcriptionBufferRef s; browser := v |}.

Definition set_nodes (v : list SourceNode) (b : Browser) : Browser :=
  {| nodes := v; contexts := contexts b; sessions := sessions b;
     mediaStreams := mediaStreams b; alerts := alerts b |}.

Definition set_contexts (v : list nat) (b : Browser) : Browser :=
  {| nodes := nodes b; contexts := v; sessions := sessions b;
     mediaStreams := mediaStreams b; alerts := alerts b |}.

Definition set_sessions (v : list nat) (b : Browser) : Browser :=
  {| nodes := nodes b; contexts := contexts b; sessions := v;
     mediaStreams := mediaStreams b; alerts := alerts b |}.

Definition set_mediaStreams (v : nat) (b : Browser) : Browser :=
  {| nodes := nodes b; contexts := contexts b; sessions := sessions b;
     mediaStreams := v; alerts := alerts b |}.

Definition set_alerts (v : nat) (b : Browser) : Browser :=
  {| nodes := nodes b; contexts := contexts b; sessions := sessions b;
     mediaStreams := mediaStreams b; alerts := v |}.

(** ** [./utils/audio-utils.ts]

    The two helpers [onmessage] imports from it. Their code is not among
    the sources read here, so they are parameters of the development:
    [decode] turns the transport text into bytes and [decodeAudioData] the
    bytes into an audio buffer of a given sample rate and channel count.
    [None] is a thrown exception ([decode]) or a rejected promise
    ([decodeAudioData]). *)
Class AudioUtils := {
  decode : jsstring -> option (list Byte.byte);
  decodeAudioData : list Byte.byte -> positive -> positive -> option AudioBuffer
}.

(** What a run of [onmessage] reads from its surroundings: the output
    context's clock, and the successive results of its calls of
    [Date.now()]. *)
Record Readings := {
  currentTime : Q;
  Date_now : nat -> Z
}.

(** ** [stopAudio] *)

(** [try { s.stop(); } catch(e) {}] *)
Definition try_stop (n : SourceNode) : SourceNode :=
  match node_stop n with
  | Some n' => n'
  | None => n
  end.

Definition stopAudio (s : App) : App :=
  let stopped :=
    set_fold (fun i ns => alter try_stop i ns) (nodes (browser s)) (sourcesRef s) in
  let s := set_browser (set_nodes stopped (browser s)) s in
  let s := set_sourcesRef ∅ s in
  set_nextStartTimeRef 0 s.

(** ** [onmessage] *)

Section Handlers.
Context `{AudioUtils}.

(** Where a run of the handler stands when it gives control back: at its
    end, at an exception thrown by [decode], or at the [await] of line 99
    with the outcome the awaited promise will have and the [interrupted]
    flag of the message it still has to look at. *)
Inductive Suspension :=
  | Completed
  | Threw
  | AwaitDecode (buffer : option AudioBuffer) (intr : bool).

Definition flag (f : ServerContent -> bool) (sc : option ServerContent) : bool :=
  match sc with
  | Some c => f c
  | None => false
  end.

(** [message.serverContent?.modelTurn?.parts[0]?.inlineData?.data] *)
Definition audioDataOf (sc : option ServerContent) : option jsstring :=
  c ← sc; t ← modelTurn c; p ← head (parts t); b ← inlineData p; data b.

(** Lines 75-80. *)
Definition onmessage_fragments (sc : option ServerContent) (s : App) : App :=
  let s :=
    match sc ≫= inputTranscription with
    | Some t =>
        let b := transcriptionBufferRef s in
        set_transcriptionBufferRef
          {| tb_user := tb_user b ++ tr_text t; tb_model := tb_model b |} s
    | None => s
    end in
  match sc ≫= outputTranscription with
  | Some t =>
      let b := transcriptionBufferRef s in
      set_transcriptionBufferRef
        {| tb_user := tb_user b; tb_model := tb_model b ++ tr_text t |} s
  | None => s
  end.

(** Lines 82-91, the body of [if (turnComplete)]. *)
Definition onmessage_turnComplete (r : Readings) (s : App) : App :=
  let uText := trim (tb_user (transcriptionBufferRef s)) in
  let mText := trim (tb_model (transcriptionBufferRef s)) in
  let s :=
    if truthy uText || truthy mText then
      let k := if truthy uText then 2%nat else 0%nat in
      set_messages
        (messages s
         ++ (if truthy uText
             then [ {| id := lit "u-" ++ ofInteger (Date_now r 0); role := user;
                       text := uText; timestamp := Date_now r 1 |} ]
             else [])
         ++ (if truthy mText
             then [ {| id := lit "m-" ++ ofInteger (Date_now r k); role := model;
                       text := mText; timestamp := Date_now r (S k) |} ]
             else [])) s
    else s in
  set_transcriptionBufferRef {| tb_user := []; tb_model := [] |} s.

(** Lines 100-107: the handler from the [await] on. *)
Definition onmessage_resume (buffer : option AudioBuffer) (intr : bool) (s : App) : App :=
  match buffer with
  | None => s
  | Some b =>
      let source := {| sn_buffer := b; sn_when := 0; sn_state := Created |} in
      match node_start (nextStartTimeRef s) source with
      | None => s
      | Some source =>
          let i := length (nodes (browser s)) in
          let s := set_browser (set_nodes (nodes (browser s) ++ [source]) (browser s)) s in
          let s := set_nextStartTimeRef (nextStartTimeRef s + duration b) s in
          let s := set_sourcesRef ({[ i ]} ∪ sourcesRef s) s in
          if intr then stopAudio s else s
      end
  end.

(** Lines 75-99: the handler up to its first suspension. *)
Definition onmessage_sync (message : LiveServerMessage) (r : Readings) (s : App)
  : App * Suspension :=
  let sc := serverContent message in
  let s := onmessage_fragments sc s in
  let s := if flag turnComplete sc then onmessage_turnComplete r s else s in
  let finish := (if flag interrupted sc then stopAudio s else s, Completed) in
  match audioDataOf sc, audioContextsRef s with
  | Some audioData, Some _ =>
      if truthy audioData then
        let s := set_nextStartTimeRef (Qmax (nextStartTimeRef s) (currentTime r)) s in
        match decode audioData with
        | None => (s, Threw)
        | Some bytes => (s, AwaitDecode (decodeAudioData bytes 24000 1) (flag interrupted sc))
        end
      else finish
  | _, _ => finish
  end.

(** One message handled from start to end, nothing else running while the
    handler waits for the decoded buffer. *)
Definition onmessage (message : LiveServerMessage) (r : Readings) (s : App) : App :=
  let '(s, k) := onmessage_sync message r s in
  match k with
  | AwaitDecode buffer intr => onmessage_resume buffer intr s
  | Completed | Threw => s
  end.

End Handlers.

(** ** The session callbacks and the button *)

Definition onopen (s : App) : App := set_status ACTIVE s.

Definition onerror (s : App) : App := set_status ERROR s.

Definition onclose (s : App) : App := set_status IDLE s.

(** What a start request meets: whether [process.env.API_KEY] is set and
    whether [getUserMedia] grants the microphone. *)
Record StartEnv := {
  apiKey : bool;
  microphone : bool
}.

(** Lines 124-128, the [catch] of [handleStartSession]. *)
Definition handleStartSession_catch (s : App) : App :=
  let s := set_status ERROR s in
  set_browser (set_alerts (S (alerts (browser s))) (browser s)) s.

(** Lines 45-54: [handleStartSession] up to the [await] of line 56, and
    whether it got that far (without the key it has thrown before).  The
    status is [CONNECTING] from line 46 on, before the microphone is asked. *)
Definition handleStartSession_sync (hasKey : bool) (s : App) : App * bool :=
  let s := set_status CONNECTING s in
  if negb hasKey then (handleStartSession_catch s, false)
  else
    let inputCtx := length (contexts (browser s)) in
    let outputCtx := S inputCtx in
    let s := set_browser (set_contexts (contexts (browser s) ++ [0; 0]%nat) (browser s)) s in
    (set_audioContextsRef (Some (inputCtx, outputCtx)) s, true).

(** Lines 56-58, and 124-128 on refusal: [handleStartSession] from the
    answer of [getUserMedia] on, up to [await sessionPromise]. *)
Definition handleStartSession_microphone (granted : bool) (s : App) : App :=
  if negb granted then handleStartSession_catch s
  else set_browser (set_mediaStreams (S (mediaStreams (browser s))) (browser s)) s.

(** Lines 45-58 with nothing delivered during the [await] of line 56: the
    two parts one after the other.  This is the start as a whole, from the
    press to [await sessionPromise]; what can happen between the two parts is
    the matter of [occur] below. *)
Definition handleStartSession (e : StartEnv) (s : App) : App :=
  let '(s, suspended) := handleStartSession_sync (apiKey e) s in
  if suspended then handleStartSession_microphone (microphone e) s else s.

(** Line 123: [sessionPromise] resolves to a new session. *)
Definition handleStartSession_resolved (s : App) : App :=
  let session := length (sessions (browser s)) in
  let s := set_browser (set_sessions (sessions (browser s) ++ [0%nat]) (browser s)) s in
  set_sessionRef (Some session) s.

(** [x.close()] on the object with handle [i]: one more call recorded. *)
Definition close (i : nat) (l : list nat) : list nat := alter S i l.

Definition handleStopSession (s : App) : App :=
  let s :=
    match sessionRef s with
    | Some session =>
        set_browser (set_sessions (close session (sessions (browser s))) (browser s)) s
    | None => s
    end in
  let s := stopAudio s in
  let s :=
    match audioContextsRef s with
    | Some (inputCtx, outputCtx) =>
        set_browser
          (set_contexts (close outputCtx (close inputCtx (contexts (browser s))))
             (browser s)) s
    | None => s
    end in
  set_status IDLE s.

(** The button: [disabled] while connecting; otherwise
    [status === ACTIVE ? handleStopSession : handleStartSession]. *)
Definition onClick (e : StartEnv) (s : App) : App :=
  match status s with
  | CONNECTING => s
  | ACTIVE => handleStopSession s
  | IDLE | ERROR => handleStartSession e s
  end.

(** ** The event loop *)

(** What the runtime can deliver to the component.  [SourceEnded i] is the
    end of playback of source node [i]: the browser marks the node; the
    component has registered no listener on it. *)
Inductive Event :=
  | Click (e : StartEnv)
  | StreamOpen
  | SessionResolved
  | SessionRejected
  | StreamMessage (message : LiveServerMessage) (r : Readings)
  | StreamError
  | StreamClose
  | SourceEnded (i : nat).

Section EventLoop.
Context `{AudioUtils}.

Definition step (s : App) (ev : Event) : App :=
  match ev with
  | Click e => onClick e s
  | StreamOpen => onopen s
  | SessionResolved => handleStartSession_resolved s
  | SessionRejected => handleStartSession_catch s
  | StreamMessage message r => onmessage message r s
  | StreamError => onerror s
  | StreamClose => onclose s
  | SourceEnded i =>
      set_browser (set_nodes (alter node_end i (nodes (browser s))) (browser s)) s
  end.

Definition run (s : App) (evs : list Event) : App := foldl step s evs.

End EventLoop.

(** ** The event loop, with the wait for the microphone

    [handleStartSession] gives control back at the [await] of line 56: the
    status is [CONNECTING] from the click on, and the answer of
    [getUserMedia] is an occurrence of its own, before which any callback may
    run. An occurrence is a press on the button (with the key present or
    not), the answer to a start that waits for the microphone, or any other
    event of [Event]. The state carries the number of starts that wait. *)

Inductive Occurrence :=
  | Press (hasKey : bool)
  | MicrophoneAnswer (granted : bool)
  | Callback (ev : Event).

Section Occurrences.
Context `{AudioUtils}.

Definition occur (st : App * nat) (o : Occurrence) : App * nat :=
  let '(s, waiting) := st in
  match o with
  | Press hasKey =>
      match status s with
      | CONNECTING => st
      | ACTIVE => (handleStopSession s, waiting)
      | IDLE | ERROR =>
          let '(s', suspended) := handleStartSession_sync hasKey s in
          (s', if suspended then S waiting else waiting)
      end
  | MicrophoneAnswer granted =>
      match waiting with
      | O => st
      | S n => (handleStartSession_microphone granted s, n)
      end
  | Callback ev =>
      match ev with
      | Click _ => st
      | _ => (step s ev, waiting)
      end
  end.

Definition occurs (st : App * nat) (l : list Occurrence) : App * nat :=
  foldl occur st l.

End Occurrences.

(** ** Handlers that overlap

    [onmessage] is an async function: a run that reaches the [await] of
    line 99 gives control back, and any other callback may run before the
    decoded buffer arrives and the run goes on. [Arrive] starts a run of the
    handler; [Settle k] lets the [k]-th suspended run go on. *)

Record Pending := { pd_buffer : option AudioBuffer; pd_intr : bool }.

Inductive Action :=
  | Arrive (message : LiveServerMessage) (r : Readings)
  | Settle (k : nat).

Section Overlap.
Context `{AudioUtils}.

Definition act (st : App * list Pending) (a : Action) : App * list Pending :=
  let '(s, waiting) := st in
  match a with
  | Arrive message r =>
      let '(s', k) := onmessage_sync message r s in
      match k with
      | AwaitDecode buffer intr =>
          (s', waiting ++ [ {| pd_buffer := buffer; pd_intr := intr |} ])
      | Completed | Threw => (s', waiting)
      end
  | Settle k =>
      match waiting !! k with
      | Some p => (onmessage_resume (pd_buffer p) (pd_intr p) s, delete k waiting)
      | None => (s, waiting)
      end
  end.

Definition acts (st : App * list Pending) (l : list Action) : App * list Pending :=
  foldl act st l.

(** The action starts no run on a message with the interruption flag. *)
Definition calm (a : Action) : Prop :=
  match a with
  | Arrive message _ => flag interrupted (serverContent message) = false
  | Settle _ => True
  end.

End Overlap.

(** Every node of [l] starts no earlier than the node before it ends. *)
Definition backToBack (l : list SourceNode) : Prop :=
  forall i a b, l !! i = Some a -> l !! S i = Some b ->
    node_finish a <= sn_when b /\ sn_when a <= sn_when b.

(** What the handler has scheduled since [s0]: new nodes only, back to
    back, none ending after the cursor. *)
Definition scheduledSince (s0 s : App) : Prop :=
  exists new,
    nodes (browser s) = nodes (browser s0) ++ new
    /\ backToBack new
    /\ Forall (fun n => node_finish n <= nextStartTimeRef s) new.

(** ** Message identities *)

(** The [id] the handler gives a message of role [ro] made at
    [Date.now() = t]. *)
Definition idOf (ro : Role) (t : Z) : jsstring :=
  lit (match ro with user => "u-" | model => "m-" end) ++ ofInteger t.

(** The clock readings of the message events of a run, in order. *)
Fixpoint readingsOf (evs : list Event) : list Readings :=
  match evs with
  | [] => []
  | StreamMessage _ r :: evs' => r :: readingsOf evs'
  | _ :: evs' => readingsOf evs'
  end.

(** No [Date.now()] of the one run equals a [Date.now()] of the other. *)
Definition apart (r r' : Readings) : Prop :=
  forall k k', Date_now r k <> Date_now r' k'.

Fixpoint distinctClocks (rs : list Readings) : Prop :=
  match rs with
  | [] => True
  | r :: rs' => Forall (apart r) rs' /\ distinctClocks rs'
  end.

(** Every message of the log got its [id] from a reading of [past]. *)
Definition stamped (past : list Readings) (log : list ChatMessage) : Prop :=
  Forall (fun c => exists r k, r ∈ past /\ id c = idOf (role c) (Date_now r k)) log.

(** ** Notions used in the statements *)

Section Chunks.
Context `{AudioUtils}.

(** The buffer line 99 obtains from a message, when the message carries a
    payload and both helpers succeed on it. *)
Definition chunkOf (message : LiveServerMessage) : option AudioBuffer :=
  audioData ← audioDataOf (serverContent message);
  if truthy audioData
  then bytes ← decode audioData; decodeAudioData bytes 24000 1
  else None.

(** The message carries a payload on which [decode] throws or
    [decodeAudioData] rejects. *)
Definition undecodable (message : LiveServerMessage) : Prop :=
  exists audioData, audioDataOf (serverContent message) = Some audioData
    /\ truthy audioData = true /\ chunkOf message = None.

(** An enqueue of buffer [b]: a message with a payload that decodes to [b],
    and no interruption in the same message. *)
Definition enqueues (message : LiveServerMessage) (b : AudioBuffer) : Prop :=
  chunkOf message = Some b /\ flag interrupted (serverContent message) = false.

(** The message has a payload the handler will try to play. *)
Definition carriesAudio (ev : Event) : bool :=
  match ev with
  | StreamMessage message _ =>
      match audioDataOf (serverContent message) with
      | Some audioData => truthy audioData
      | None => false
      end
  | _ => false
  end.

End Chunks.

(** The same message without its audio payload and its interruption flag. *)
Definition textOnly (message : LiveServerMessage) : LiveServerMessage :=
  {| serverContent :=
       c ← serverContent message;
       Some {| inputTranscription := inputTranscription c;
               outputTranscription := outputTranscription c;
               turnComplete := turnComplete c;
               modelTurn := None; interrupted := false |} |}.

(** The scheduler's [enqueue] as the specification words it, over the
    chunks of a sequence of calls, each with the reading of the output clock
    at its call: [startTime = max(NextStartTime, outputClockNow())], then
    [NextStartTime = startTime + chunk.duration].  The result is the start
    time given to each chunk, and the cursor at the end. *)
Fixpoint spec_enqueue (NextStartTime : Q) (chunks : list (Q * AudioBuffer))
  : list (Q * AudioBuffer) * Q :=
  match chunks with
  | [] => ([], NextStartTime)
  | (now, chunk) :: rest =>
      let startTime := Qmax NextStartTime now in
      let '(starts, cursor) := spec_enqueue (startTime + duration chunk) rest in
      ((startTime, chunk) :: starts, cursor)
  end.

(** The aggregator's [finalizeTurn] as the specification words it: trim
    both accumulators and keep, user before model, each one that is not
    empty. *)
Definition spec_finalizeTurn (userAcc modelAcc : jsstring) : list (Role * jsstring) :=
  (if decide (trim userAcc = []) then [] else [(user, trim userAcc)])
  ++ (if decide (trim modelAcc = []) then [] else [(model, trim modelAcc)]).

(** The node [source.start(t)] leaves behind for buffer [b]. *)
Definition startedNode (p : Q * AudioBuffer) : SourceNode :=
  {| sn_buffer := p.2; sn_when := p.1; sn_state := Started |}.

(** The number of [close()] calls recorded on the object with handle [i]. *)
Definition closeCalls (l : list nat) (i : nat) : nat := default 0%nat (l !! i).

(** The text of a fragment field, empty when the field is absent. *)
Definition fragmentText (t : option Transcription) : jsstring :=
  match t with
  | Some t => tr_text t
  | None => []
  end.

(** The role and text of a message of the log. *)
Definition said (c : ChatMessage) : Role * jsstring := (role c, text c).

(** A message that carries the turn boundary and nothing else. *)
Definition turnCompleteOnly : LiveServerMessage :=
  {| serverContent :=
       Some {| inputTranscription := None; outputTranscription := None;
               turnComplete := true; modelTurn := None; interrupted := false |} |}.

Definition emptyBuffer : TranscriptionBuffer := {| tb_user := []; tb_model := [] |}.

(** Back to back from [cursor] on: every chunk starts no earlier than the
    end of the one before it (than [cursor], for the first). *)
Fixpoint chained (cursor : Q) (l : list (Q * AudioBuffer)) : Prop :=
  match l with
  | [] => True
  | p :: l' => cursor <= p.1 /\ chained (p.1 + duration p.2) l'
  end.

(** The events and the chunks of a sequence of enqueues. *)
Definition enqueueEvents (ins : list (LiveServerMessage * Readings * AudioBuffer))
  : list Event :=
  (fun x => StreamMessage x.1.1 x.1.2) <$> ins.

Definition enqueueChunks (ins : list (LiveServerMessage * Readings * AudioBuffer))
  : list (Q * AudioBuffer) :=
  (fun x => (currentTime x.1.2, x.2)) <$> ins.

(** ** What the component renders (lines 141-230)

    The parts of the returned tree that depend on the state: the status
    pill of the header, the message list, and the button with its rings, its
    icon and the caption under it. *)

(** The values of the enum of [src/types.ts], which the header prints. *)
Definition statusText (st : SessionStatus) : string :=
  match st with
  | IDLE => "IDLE"
  | CONNECTING => "CONNECTING"
  | ACTIVE => "ACTIVE"
  | ERROR => "ERROR"
  end.

Inductive Icon := Spinner | StopSquare | Microphone.

Inductive Caption := Listening | Establishing | TapTheMic.

(** The function given to [onClick]. *)
Inductive Handler := Stop | Start.

Record Bubble := {
  bb_key : jsstring;
  bb_right : bool;       (* [justify-end], and the indigo colours *)
  bb_text : jsstring
}.

Record View := {
  v_pulse : bool;                      (* line 157: the green, pulsing dot *)
  v_status : string;                   (* line 158 *)
  v_bubbles : option (list Bubble);    (* line 165: [None] is the welcome panel *)
  v_rings : bool;                      (* line 197 *)
  v_onClick : Handler;                 (* line 204 *)
  v_disabled : bool;                   (* line 205 *)
  v_rose : bool;                       (* line 207 *)
  v_icon : Icon;                       (* lines 210-218 *)
  v_caption : Caption                  (* line 224 *)
}.

Definition render (s : App) : View :=
  let active := bool_decide (status s = ACTIVE) in
  let connecting := bool_decide (status s = CONNECTING) in
  {| v_pulse := active;
     v_status := statusText (status s);
     v_bubbles :=
       if decide (length (messages s) = 0%nat) then None
       else Some ((fun m => {| bb_key := id m;
                               bb_right := bool_decide (role m = user);
                               bb_text := text m |}) <$> messages s);
     v_rings := active;
     v_onClick := if active then Stop else Start;
     v_disabled := connecting;
     v_rose := active;
     v_icon := if connecting then Spinner else if active then StopSquare else Microphone;
     v_caption := if active then Listening else if connecting then Establishing else TapTheMic |}.

(** A press on the button as rendered: nothing when it is disabled,
    otherwise the function it was given. *)
Definition press (v : View) (e : StartEnv) (s : App) : App :=
  if v_disabled v then s
  else match v_onClick v with
       | Stop => handleStopSession s
       | Start => handleStartSession e s
       end.

(** ** More notions used in the statements *)

Definition allWhiteSpace (t : jsstring) : Prop :=
  Forall (fun c => isWhiteSpace c = true) t.

(** A text with something in it and no white space at either end. *)
Definition tight (t : jsstring) : Prop :=
  (exists c, head t = Some c /\ isWhiteSpace c = false)
  /\ (exists c, last t = Some c /\ isWhiteSpace c = false).

(** The handles point at objects that exist, the two contexts are the pair
    made by one start, and every node in the store has been started. *)
Definition wellFormed (s : App) : Prop :=
  (forall i, sessionRef s = Some i -> (i < length (sessions (browser s)))%nat)
  /\ (forall i o, audioContextsRef s = Some (i, o) ->
        o = S i /\ (o < length (contexts (browser s)))%nat)
  /\ (forall i, i ∈ sourcesRef s -> (i < length (nodes (browser s)))%nat)
  /\ Forall (fun n => sn_state n <> Created) (nodes (browser s)).

Definition isClick (ev : Event) : bool :=
  match ev with
  | Click _ => true
  | _ => false
  end.

(** Neither a click nor a message with the interruption flag. *)
Definition quiet (ev : Event) : Prop :=
  match ev with
  | Click _ => False
  | StreamMessage message _ => flag interrupted (serverContent message) = false
  | _ => True
  end.

(** [n'] is the node [n] later on, not stopped unless [n] was. *)
Definition playsOn (n n' : SourceNode) : Prop :=
  sn_buffer n' = sn_buffer n /\ sn_when n' = sn_when n
  /\ (sn_state n' = Stopped -> sn_state n = Stopped).

Definition isMessage (ev : Event) : bool :=
  match ev with
  | StreamMessage _ _ => true
  | _ => false
  end.

(** The button is pressed while the status is [ACTIVE]. *)
Definition isStop (s : App) (ev : Event) : Prop :=
  match ev with
  | Click _ => status s = ACTIVE
  | _ => False
  end.

(** The same message without its model turn, and so without a payload. *)
Definition withoutPayload (message : LiveServerMessage) : LiveServerMessage :=
  {| serverContent :=
       c ← serverContent message;
       Some {| inputTranscription := inputTranscription c;
               outputTranscription := outputTranscription c;
               turnComplete := turnComplete c;
               modelTurn := None; interrupted := interrupted c |} |}.

(** The same message with only the first part of its model turn. *)
Definition firstPartOnly (message : LiveServerMessage) : LiveServerMessage :=
  {| serverContent :=
       c ← serverContent message;
       Some {| inputTranscription := inputTranscription c;
               outputTranscription := outputTranscription c;
               turnComplete := turnComplete c;
               modelTurn := (fun t => {| parts := take 1 (parts t) |}) <$> modelTurn c;
               interrupted := interrupted c |} |}.

(** The fragments of a sequence of messages, in order, as one text. *)
Definition userFragments (ms : list (LiveServerMessage * Readings)) : jsstring :=
  concat ((fun x => fragmentText (serverContent x.1 ≫= inputTranscription)) <$> ms).

Definition modelFragments (ms : list (LiveServerMessage * Readings)) : jsstring :=
  concat ((fun x => fragmentText (serverContent x.1 ≫= outputTranscription)) <$> ms).

Definition messageEvents (ms : list (LiveServerMessage * Readings)) : list Event :=
  (fun x => StreamMessage x.1 x.2) <$> ms.

(** ** Sample data for closed statements *)

Module Sample.

(** A stand-in for [audio-utils]: [decode] refuses a text with a code unit
    outside the base-64 alphabet and otherwise yields one byte per code
    unit; [decodeAudioData] makes a buffer of one frame per two bytes and
    channel. *)
Definition isBase64 (c : N) : bool :=
  (((65 <=? c) && (c <=? 90)) || ((97 <=? c) && (c <=? 122))
   || ((48 <=? c) && (c <=? 57)) || (c =? 43) || (c =? 47) || (c =? 61))%N.

#[export] Instance utils : AudioUtils := {|
  decode t :=
    if forallb isBase64 t then Some ((fun _ => Byte.x00) <$> t) else None;
  decodeAudioData bytes rate channels :=
    Some {| ab_length := N.of_nat (length bytes) / 2 / Npos channels;
            ab_sampleRate := rate |}
|}.

Definition clock (t : Q) (now : Z) : Readings :=
  {| currentTime := t; Date_now := fun _ => now |}.

Definition msg (c : ServerContent) : LiveServerMessage :=
  {| serverContent := Some c |}.

Definition audioPart (t : string) : option Content :=
  Some {| parts := [ {| inlineData := Some {| data := Some (lit t) |} |} ] |}.

Definition audio (t : string) : LiveServerMessage :=
  msg {| inputTranscription := None; outputTranscription := None;
         turnComplete := false; modelTurn := audioPart t; interrupted := false |}.

(** Two chunks of four frames each, the second arriving while the first is
    still to play. *)
Definition fourFrames : AudioBuffer := {| ab_length := 4; ab_sampleRate := 24000 |}.

Definition twoChunks : list (LiveServerMessage * Readings * AudioBuffer) :=
  [ (audio "AAAAAAAA", clock 0 1000, fourFrames);
    (audio "AAAAAAAA", clock (1 # 24000) 1001, fourFrames) ].

(** A message with a fragment of user speech, a turn boundary and a chunk. *)
Definition hiTurnWithAudio : LiveServerMessage :=
  msg {| inputTranscription := Some {| tr_text := lit "Hi" |};
         outputTranscription := None; turnComplete := true;
         modelTurn := audioPart "AAAAAAAA"; interrupted := false |}.

(** A fragment of user speech alone, and with a turn boundary. *)
Definition hi : LiveServerMessage :=
  msg {| inputTranscription := Some {| tr_text := lit "Hi" |};
         outputTranscription := None; turnComplete := false;
         modelTurn := None; interrupted := false |}.

Definition hello : LiveServerMessage :=
  msg {| inputTranscription := None;
         outputTranscription := Some {| tr_text := lit "Hello" |};
         turnComplete := false; modelTurn := None; interrupted := false |}.

Definition hiTurn : LiveServerMessage :=
  msg {| inputTranscription := Some {| tr_text := lit "Hi" |};
         outputTranscription := None; turnComplete := true;
         modelTurn := None; interrupted := false |}.

(** The same turn with a payload that is not base-64 text. *)
Definition hiTurnMalformed : LiveServerMessage :=
  msg {| inputTranscription := Some {| tr_text := lit "Hi" |};
         outputTranscription := None; turnComplete := true;
         modelTurn := audioPart "AA!A"; interrupted := false |}.

(** A turn, a chunk and a barge-in, all in one message. *)
Definition bargeIn : LiveServerMessage :=
  msg {| inputTranscription := Some {| tr_text := lit " Hi " |};
         outputTranscription := None; turnComplete := true;
         modelTurn := audioPart "AAAAAAAA"; interrupted := true |}.

(** A barge-in with a payload that is not base-64 text. *)
Definition bargeInMalformed : LiveServerMessage :=
  msg {| inputTranscription := None; outputTranscription := None;
         turnComplete := false; modelTurn := audioPart "AA!A"; interrupted := true |}.

(** Two chunks of four frames, the second arriving five seconds later. *)
Definition lateChunks : list (LiveServerMessage * Readings * AudioBuffer) :=
  [ (audio "AAAAAAAA", clock 0 1000, fourFrames);
    (audio "AAAAAAAA", clock 5 6000, fourFrames) ].

(** A barge-in signal alone. *)
Definition interruption : LiveServerMessage :=
  msg {| inputTranscription := None; outputTranscription := None;
         turnComplete := false; modelTurn := None; interrupted := true |}.

Definition granted : StartEnv := {| apiKey := true; microphone := true |}.

(** A session brought up the regular way. *)
Definition active : App :=
  run initial [Click granted; StreamOpen; SessionResolved].

(** The same session after the user pressed the button again to stop it. *)
Definition stopped : App := run active [Click granted].

(** The same session with the two chunks scheduled. *)
Definition playing : App := run active (enqueueEvents twoChunks).

End Sample.

(** * Properties *)

(** ** [stopAudio] *)

Lemma stop_all_lookup (X : gset nat) (ns : list SourceNode) (j : nat) :
  set_fold (fun i l => alter try_stop i l) ns X !! j
  = if decide (j ∈ X) then try_stop <$> ns !! j else ns !! j.
Proof.
  revert X j.
  refine (set_fold_ind_L
           (fun (r : list SourceNode) (Y : gset nat) =>
              forall j, r !! j = if decide (j ∈ Y) then try_stop <$> ns !! j else ns !! j)
           _ ns _ _).
  - intros j. case_decide; [set_solver | done].
  - intros x Y r Hx IH j.
    destruct (decide (j = x)) as [->|Hne].
    + rewrite list_lookup_alter_eq, IH.
      rewrite (decide_False (P := x ∈ Y)) by done.
      rewrite decide_True by set_solver. done.
    + rewrite list_lookup_alter_ne by done. rewrite IH.
      apply decide_ext. rewrite elem_of_union, elem_of_singleton. tauto.
Qed.

Lemma stop_all_length (X : gset nat) (ns : list SourceNode) :
  length (set_fold (fun i l => alter try_stop i l) ns X) = length ns.
Proof.
  revert X.
  refine (set_fold_ind_L
            (fun (r : list SourceNode) (_ : gset nat) => length r = length ns) _ ns _ _).
  - done.
  - intros x Y r _ IH. by rewrite length_alter.
Qed.

Lemma try_stop_not_started (n : SourceNode) : sn_state (try_stop n) <> Started.
Proof. destruct n as [b w []]; simpl; discriminate. Qed.

Lemma try_stop_started (n : SourceNode) :
  sn_state n = Started -> sn_state (try_stop n) = Stopped.
Proof. destruct n as [b w []]; simpl; congruence. Qed.

Lemma stopAudio_idle (s : App) :
  sourcesRef s = ∅ -> stopAudio s = set_nextStartTimeRef 0 s.
Proof.
  destruct s as [st ms se ac so ne tb [ns cs ss md al]]; simpl; intros ->.
  unfold stopAudio; simpl. by rewrite set_fold_empty.
Qed.

(** C2. [stopAudio] (the scheduler's [interrupt()]) stops every source of the
    active set and touches no other node; when it returns the active set is
    empty and the cursor is zero; a second call in a row changes nothing; and
    on an empty active set it does nothing but reset the cursor. *)
Theorem stopAudio_interrupt (s : App) :
  (forall i n, i ∈ sourcesRef s -> nodes (browser s) !! i = Some n ->
     nodes (browser (stopAudio s)) !! i = Some (try_stop n)
     /\ sn_state (try_stop n) <> Started
     /\ (sn_state n = Started -> sn_state (try_stop n) = Stopped))
  /\ (forall i, i ∉ sourcesRef s ->
        nodes (browser (stopAudio s)) !! i = nodes (browser s) !! i)
  /\ sourcesRef (stopAudio s) = ∅
  /\ nextStartTimeRef (stopAudio s) = 0
  /\ stopAudio (stopAudio s) = stopAudio s
  /\ (sourcesRef s = ∅ -> stopAudio s = set_nextStartTimeRef 0 s).
Proof.
  split; [|split; [|split; [|split; [|split]]]].
  - intros i n Hi Hn. split; [|split].
    + simpl. rewrite stop_all_lookup, decide_True by done. by rewrite Hn.
    + apply try_stop_not_started.
    + apply try_stop_started.
  - intros i Hi. simpl. by rewrite stop_all_lookup, decide_False.
  - reflexivity.
  - reflexivity.
  - by rewrite (stopAudio_idle (stopAudio s)).
  - apply stopAudio_idle.
Qed.

(** ** The text half of [onmessage] *)

Lemma set_transcriptionBufferRef_id (s : App) :
  set_transcriptionBufferRef (transcriptionBufferRef s) s = s.
Proof. by destruct s. Qed.

Lemma set_messages_id (s : App) : set_messages (messages s) s = s.
Proof. by destruct s. Qed.

(** Lines 75-80 append the two fragments and touch nothing else. *)
Lemma onmessage_fragments_eq (sc : option ServerContent) (s : App) :
  onmessage_fragments sc s
  = set_transcriptionBufferRef
      {| tb_user := tb_user (transcriptionBufferRef s)
                    ++ fragmentText (sc ≫= inputTranscription);
         tb_model := tb_model (transcriptionBufferRef s)
                     ++ fragmentText (sc ≫= outputTranscription) |} s.
Proof.
  unfold onmessage_fragments.
  destruct s as [st ms se ac so ne [u m] br].
  destruct (sc ≫= inputTranscription), (sc ≫= outputTranscription);
    simpl; unfold set_transcriptionBufferRef; simpl;
    rewrite ?app_nil_r; reflexivity.
Qed.

(** Lines 82-91 append the finalized messages, empty the two accumulators
    and touch nothing else. *)
Lemma onmessage_turnComplete_eq (r : Readings) (s : App) :
  exists new,
    onmessage_turnComplete r s
    = set_transcriptionBufferRef {| tb_user := []; tb_model := [] |}
        (set_messages (messages s ++ new) s)
    /\ said <$> new
       = spec_finalizeTurn (tb_user (transcriptionBufferRef s))
           (tb_model (transcriptionBufferRef s)).
Proof.
  unfold onmessage_turnComplete, spec_finalizeTurn.
  destruct (trim (tb_user (transcriptionBufferRef s))) as [|a u];
    destruct (trim (tb_model (transcriptionBufferRef s))) as [|b m]; simpl.
  - exists []. by rewrite app_nil_r, set_messages_id.
  - eexists. split; reflexivity.
  - eexists. split; reflexivity.
  - eexists. split; reflexivity.
Qed.

Section Aggregator.
Context `{AudioUtils}.

Lemma onmessage_turnCompleteOnly (r : Readings) (s : App) :
  onmessage turnCompleteOnly r s = onmessage_turnComplete r s.
Proof.
  unfold onmessage, onmessage_sync; simpl.
  rewrite onmessage_fragments_eq; simpl. rewrite !app_nil_r.
  destruct s as [st ms se ac so ne [u m] br]; simpl.
  unfold set_transcriptionBufferRef; simpl.
  by destruct ac.
Qed.

Lemma spec_finalizeTurn_length (u m : jsstring) :
  length (spec_finalizeTurn u m)
  = ((if decide (trim u = []) then 0 else 1) + (if decide (trim m = []) then 0 else 1))%nat.
Proof. unfold spec_finalizeTurn. rewrite length_app. by repeat case_decide. Qed.

(** C3. The [turnComplete] branch, for every content of the two
    accumulators: it appends to the log one message for each accumulator that
    is not empty once trimmed, with the trimmed text, user before model (so
    none, one or two messages); it empties both accumulators whatever they
    held; it changes nothing else; and with both accumulators empty it
    appends nothing. *)
Theorem finalizeTurn_turnComplete (r : Readings) (s : App) :
  let u := tb_user (transcriptionBufferRef s) in
  let m := tb_model (transcriptionBufferRef s) in
  let s' := onmessage turnCompleteOnly r s in
  (exists new,
      messages s' = messages s ++ new
      /\ said <$> new = spec_finalizeTurn u m
      /\ length new
         = ((if decide (trim u = []) then 0 else 1)
            + (if decide (trim m = []) then 0 else 1))%nat)
  /\ transcriptionBufferRef s' = emptyBuffer
  /\ set_transcriptionBufferRef (transcriptionBufferRef s) (set_messages (messages s) s') = s
  /\ onmessage turnCompleteOnly r (set_transcriptionBufferRef emptyBuffer s)
     = set_transcriptionBufferRef emptyBuffer s.
Proof.
  intros u m s'. subst s'. rewrite !onmessage_turnCompleteOnly.
  destruct (onmessage_turnComplete_eq r s) as (new & -> & Hnew).
  split; [|split; [|split]].
  - exists new. split; [reflexivity|]. split; [exact Hnew|].
    rewrite <- (length_fmap said), Hnew. apply spec_finalizeTurn_length.
  - reflexivity.
  - by destruct s.
  - destruct s as [st ms se ac so ne tb br].
    unfold onmessage_turnComplete, set_transcriptionBufferRef; simpl. reflexivity.
Qed.

End Aggregator.

(** ** The shape of a run of [onmessage] *)

Section Shape.
Context `{AudioUtils}.

Lemma onmessage_textOnly (message : LiveServerMessage) (r : Readings) (s : App) :
  onmessage (textOnly message) r s
  = let s1 := onmessage_fragments (serverContent message) s in
    if flag turnComplete (serverContent message) then onmessage_turnComplete r s1 else s1.
Proof.
  destruct message as [[c|]]; unfold onmessage, onmessage_sync; simpl.
  - destruct c as [i o tc mt it]; simpl.
    unfold onmessage_fragments; simpl.
    by destruct tc.
  - reflexivity.
Qed.

(** The text half touches the accumulators and the log only. *)
Lemma onmessage_textOnly_frame (message : LiveServerMessage) (r : Readings) (s : App) :
  exists tb ms,
    onmessage (textOnly message) r s
    = set_transcriptionBufferRef tb (set_messages ms s).
Proof.
  rewrite onmessage_textOnly; simpl.
  rewrite onmessage_fragments_eq.
  destruct (flag turnComplete (serverContent message)).
  - destruct (onmessage_turnComplete_eq r
                (set_transcriptionBufferRef
                   {| tb_user := tb_user (transcriptionBufferRef s)
                        ++ fragmentText (serverContent message ≫= inputTranscription);
                      tb_model := tb_model (transcriptionBufferRef s)
                        ++ fragmentText (serverContent message ≫= outputTranscription) |} s))
      as (new & -> & _).
    eexists _, _. reflexivity.
  - eexists _, (messages s). by rewrite set_messages_id.
Qed.

(** A run of the handler: the text half; then, for a payload and with
    audio contexts at hand, the cursor raised to the clock and, when the
    payload decodes, lines 100-107; without a payload, line 107 alone. *)
Lemma onmessage_cases (message : LiveServerMessage) (r : Readings) (s : App) :
  onmessage message r s
  = let t := onmessage (textOnly message) r s in
    let intr := flag interrupted (serverContent message) in
    if carriesAudio (StreamMessage message r) && bool_decide (is_Some (audioContextsRef s))
    then
      let t1 := set_nextStartTimeRef (Qmax (nextStartTimeRef s) (currentTime r)) t in
      match chunkOf message with
      | Some b => onmessage_resume (Some b) intr t1
      | None => t1
      end
    else if intr then stopAudio t else t.
Proof.
  destruct (onmessage_textOnly_frame message r s) as (tb & ms & Ht).
  cbv zeta. rewrite Ht.
  rewrite onmessage_textOnly in Ht.
  unfold onmessage, onmessage_sync, carriesAudio, chunkOf.
  cbv zeta in Ht. cbv zeta. rewrite Ht. simpl.
  destruct (audioDataOf (serverContent message)) as [d|]; simpl; [|reflexivity].
  destruct (audioContextsRef s) as [c|]; simpl.
  - destruct (truthy d); simpl; [|reflexivity].
    destruct (decode d) as [bytes|]; simpl; [|reflexivity].
    destruct (decodeAudioData bytes 24000 1); reflexivity.
  - rewrite andb_false_r. reflexivity.
Qed.

End Shape.

(** ** The playback scheduler *)

Lemma duration_nonneg (b : AudioBuffer) : 0 <= duration b.
Proof. unfold duration, Qle; simpl. lia. Qed.

Lemma spec_enqueue_chained (cursor : Q) (chunks : list (Q * AudioBuffer)) :
  chained cursor (spec_enqueue cursor chunks).1.
Proof.
  revert cursor. induction chunks as [|[now b] rest IH]; intros cursor; simpl.
  - exact I.
  - specialize (IH (Qmax cursor now + duration b)).
    destruct (spec_enqueue (Qmax cursor now + duration b) rest) as [starts c] eqn:E.
    simpl in *. split; [apply Q.le_max_l | exact IH].
Qed.

Lemma chained_adjacent (cursor : Q) (l : list (Q * AudioBuffer)) :
  chained cursor l ->
  forall i a b, l !! i = Some a -> l !! S i = Some b ->
    a.1 + duration a.2 <= b.1 /\ a.1 <= b.1.
Proof.
  revert cursor. induction l as [|p l IH]; intros cursor Hc i a b Ha Hb.
  - discriminate.
  - destruct Hc as [_ Hc]. destruct i as [|i]; simpl in *.
    + injection Ha as <-. destruct l as [|q l]; [discriminate|].
      injection Hb as <-. destruct Hc as [Hq _].
      split; [exact Hq|]. pose proof (duration_nonneg p.2). lra.
    + eapply IH; eauto.
Qed.

Lemma Qmax_cursor (cursor now : Q) : now <= cursor -> Qmax cursor now = cursor.
Proof.
  intros Hle. unfold Qmax, GenericMinMax.gmax.
  destruct (cursor ?= now) eqn:E; try reflexivity.
  apply Qlt_alt in E. lra.
Qed.

Lemma Qmax_clock (cursor now : Q) : cursor < now -> Qmax cursor now = now.
Proof.
  intros Hlt. unfold Qmax, GenericMinMax.gmax.
  destruct (cursor ?= now) eqn:E; [| reflexivity |].
  - apply Qeq_alt in E. lra.
  - apply Qgt_alt in E. lra.
Qed.

Lemma spec_enqueue_cons (cursor now : Q) (b : AudioBuffer) (rest : list (Q * AudioBuffer)) :
  (spec_enqueue cursor ((now, b) :: rest)).1
  = (Qmax cursor now, b) :: (spec_enqueue (Qmax cursor now + duration b) rest).1.
Proof.
  simpl. by destruct (spec_enqueue (Qmax cursor now + duration b) rest).
Qed.

(** A chunk that arrives before the cursor is reached starts exactly where
    the chunk before it ends. *)
Lemma spec_enqueue_gapless (cursor : Q) (chunks : list (Q * AudioBuffer)) :
  forall i a b x,
    (spec_enqueue cursor chunks).1 !! i = Some a ->
    (spec_enqueue cursor chunks).1 !! S i = Some b ->
    chunks !! S i = Some x ->
    x.1 <= a.1 + duration a.2 ->
    b.1 = a.1 + duration a.2.
Proof.
  revert cursor. induction chunks as [|[now bf] rest IH]; intros cursor i a b x.
  - discriminate.
  - rewrite spec_enqueue_cons. destruct i as [|i]; simpl.
    + intros [= <-]. destruct rest as [|[now' bf'] rest']; [discriminate|].
      rewrite spec_enqueue_cons. simpl. intros [= <-] [= <-]. simpl.
      apply Qmax_cursor.
    + apply IH.
Qed.

(** A chunk that arrives after the cursor has been passed starts at the
    clock, later than the end of the chunk before it. *)
Lemma spec_enqueue_late (cursor : Q) (chunks : list (Q * AudioBuffer)) :
  forall i a b x,
    (spec_enqueue cursor chunks).1 !! i = Some a ->
    (spec_enqueue cursor chunks).1 !! S i = Some b ->
    chunks !! S i = Some x ->
    a.1 + duration a.2 < x.1 ->
    b.1 = x.1.
Proof.
  revert cursor. induction chunks as [|[now bf] rest IH]; intros cursor i a b x.
  - discriminate.
  - rewrite spec_enqueue_cons. destruct i as [|i]; simpl.
    + intros [= <-]. destruct rest as [|[now' bf'] rest']; [discriminate|].
      rewrite spec_enqueue_cons. simpl. intros [= <-] [= <-]. simpl.
      apply Qmax_clock.
    + apply IH.
Qed.

Section Scheduler.
Context `{AudioUtils}.

Lemma enqueues_carriesAudio (message : LiveServerMessage) (r : Readings) (b : AudioBuffer) :
  chunkOf message = Some b -> carriesAudio (StreamMessage message r) = true.
Proof.
  unfold chunkOf, carriesAudio.
  destruct (audioDataOf (serverContent message)) as [d|]; simpl; [|discriminate].
  by destruct (truthy d).
Qed.

(** One enqueue: the chunk starts at the larger of the cursor and the clock,
    the cursor moves to the end of the chunk, the new source joins the
    active set. *)
Lemma onmessage_enqueue (message : LiveServerMessage) (r : Readings) (b : AudioBuffer)
    (s : App) :
  is_Some (audioContextsRef s) -> enqueues message b ->
  let startTime := Qmax (nextStartTimeRef s) (currentTime r) in
  onmessage message r s
  = set_sourcesRef ({[ length (nodes (browser s)) ]} ∪ sourcesRef s)
      (set_nextStartTimeRef (startTime + duration b)
         (set_browser
            (set_nodes (nodes (browser s) ++ [startedNode (startTime, b)]) (browser s))
            (onmessage (textOnly message) r s))).
Proof.
  intros Hctx [Hb Hi] startTime. rewrite onmessage_cases. cbv zeta.
  rewrite (enqueues_carriesAudio _ _ _ Hb), bool_decide_eq_true_2 by done.
  rewrite Hb, Hi. simpl.
  destruct (onmessage_textOnly_frame message r s) as (tb & ms & ->).
  reflexivity.
Qed.

Lemma onmessage_enqueue_fields (message : LiveServerMessage) (r : Readings)
    (b : AudioBuffer) (s : App) :
  is_Some (audioContextsRef s) -> enqueues message b ->
  let startTime := Qmax (nextStartTimeRef s) (currentTime r) in
  let s1 := onmessage message r s in
  audioContextsRef s1 = audioContextsRef s
  /\ nodes (browser s1) = nodes (browser s) ++ [startedNode (startTime, b)]
  /\ nextStartTimeRef s1 = startTime + duration b
  /\ sourcesRef s1 = {[ length (nodes (browser s)) ]} ∪ sourcesRef s.
Proof.
  intros Hctx He startTime s1. subst s1.
  rewrite (onmessage_enqueue _ _ _ _ Hctx He).
  destruct (onmessage_textOnly_frame message r s) as (tb & ms & ->).
  repeat split.
Qed.

(** C1, as the code has it. A sequence of enqueues (messages whose audio
    payload decodes, none of them interrupting), from any state with audio
    contexts: the sources the handler creates are exactly those of the
    specification's rule, each one started at the larger of the cursor and
    the output clock read by its run, the cursor then moved to that start time
    plus the chunk's duration; all of them join the active set; each start
    time is at least the start time before it plus the duration before it, so
    that start times never decrease and no two chunks overlap. Gaps there can
    be: a chunk starts exactly at the end of the chunk before it when it
    arrives while the output clock has not passed the cursor, and at the
    clock, after a gap, when it arrives later. *)
Theorem enqueue_back_to_back (ins : list (LiveServerMessage * Readings * AudioBuffer))
    (s : App) :
  is_Some (audioContextsRef s) ->
  Forall (fun x => enqueues x.1.1 x.2) ins ->
  let s' := run s (enqueueEvents ins) in
  let sched := spec_enqueue (nextStartTimeRef s) (enqueueChunks ins) in
  nodes (browser s') = nodes (browser s) ++ (startedNode <$> sched.1)
  /\ nextStartTimeRef s' = sched.2
  /\ sourcesRef s'
     = list_to_set (seq (length (nodes (browser s))) (length ins)) ∪ sourcesRef s
  /\ (forall i a b, sched.1 !! i = Some a -> sched.1 !! S i = Some b ->
        a.1 + duration a.2 <= b.1 /\ a.1 <= b.1)
  /\ (forall i a b x, sched.1 !! i = Some a -> sched.1 !! S i = Some b ->
        enqueueChunks ins !! S i = Some x -> x.1 <= a.1 + duration a.2 ->
        b.1 = a.1 + duration a.2)
  /\ (forall i a b x, sched.1 !! i = Some a -> sched.1 !! S i = Some b ->
        enqueueChunks ins !! S i = Some x -> a.1 + duration a.2 < x.1 ->
        b.1 = x.1 /\ a.1 + duration a.2 < b.1).
Proof.
  intros Hctx Hins s' sched.
  assert (Hrun : nodes (browser s') = nodes (browser s) ++ (startedNode <$> sched.1)
                 /\ nextStartTimeRef s' = sched.2
                 /\ sourcesRef s'
                    = list_to_set (seq (length (nodes (browser s))) (length ins))
                        ∪ sourcesRef s).
  { subst s' sched. revert s Hctx.
    induction Hins as [|[[m r] b] ins He _ IH]; intros s Hctx.
    - simpl. rewrite app_nil_r. repeat split. set_solver.
    - simpl in He.
      destruct (onmessage_enqueue_fields m r b s Hctx He) as (Hc & Hn & Ht & Hs).
      cbv zeta in Hc, Hn, Ht, Hs.
      change (run s (enqueueEvents ((m, r, b) :: ins)))
        with (run (onmessage m r s) (enqueueEvents ins)).
      assert (Hctx' : is_Some (audioContextsRef (onmessage m r s))) by by rewrite Hc.
      destruct (IH _ Hctx') as (IHn & IHt & IHs).
      rewrite IHn, IHt, IHs, Hn, Ht, Hs. clear IHn IHt IHs IH.
      simpl.
      destruct (spec_enqueue (Qmax (nextStartTimeRef s) (currentTime r) + duration b)
                  (enqueueChunks ins)) as [starts c].
      simpl. rewrite <- app_assoc. simpl.
      split; [reflexivity|]. split; [reflexivity|].
      rewrite length_app. simpl.
      replace (length (nodes (browser s)) + 1)%nat with (S (length (nodes (browser s)))) by lia.
      set_solver. }
  destruct Hrun as (Hn & Ht & Hs).
  split; [exact Hn|]. split; [exact Ht|]. split; [exact Hs|]. split; [|split].
  - apply (chained_adjacent (nextStartTimeRef s)), spec_enqueue_chained.
  - apply spec_enqueue_gapless.
  - intros i a b x Ha Hb Hx Hlate.
    pose proof (spec_enqueue_late _ _ i a b x Ha Hb Hx Hlate) as Hbx.
    split; [exact Hbx | by rewrite Hbx].
Qed.

End Scheduler.

Section Handler.
Context `{AudioUtils}.

Lemma onmessage_resume_fields (b : option AudioBuffer) (intr : bool) (s : App) :
  let s' := onmessage_resume b intr s in
  status s' = status s /\ messages s' = messages s
  /\ sessionRef s' = sessionRef s /\ audioContextsRef s' = audioContextsRef s
  /\ transcriptionBufferRef s' = transcriptionBufferRef s.
Proof. destruct b as [b|], intr; repeat split. Qed.

(** What the audio half and the interruption leave alone. *)
Lemma onmessage_fields (message : LiveServerMessage) (r : Readings) (s : App) :
  let s' := onmessage message r s in
  let t := onmessage (textOnly message) r s in
  status s' = status s /\ messages s' = messages t
  /\ sessionRef s' = sessionRef s /\ audioContextsRef s' = audioContextsRef s
  /\ transcriptionBufferRef s' = transcriptionBufferRef t.
Proof.
  cbv zeta. rewrite onmessage_cases. cbv zeta.
  destruct (onmessage_textOnly_frame message r s) as (tb & ms & ->).
  destruct (carriesAudio _ && _).
  - destruct (chunkOf message) as [b|]; [|repeat split].
    destruct (onmessage_resume_fields (Some b) (flag interrupted (serverContent message))
                (set_nextStartTimeRef (Qmax (nextStartTimeRef s) (currentTime r))
                   (set_transcriptionBufferRef tb (set_messages ms s))))
      as (-> & -> & -> & -> & ->).
    repeat split.
  - destruct (flag interrupted (serverContent message)); repeat split.
Qed.

Lemma undecodable_carriesAudio (message : LiveServerMessage) (r : Readings) :
  undecodable message ->
  carriesAudio (StreamMessage message r) = true /\ chunkOf message = None.
Proof.
  intros (d & Hd & Ht & Hc). split; [|exact Hc].
  unfold carriesAudio. by rewrite Hd.
Qed.

(** The three things a message can bring to line 95: no payload to play, a
    payload that decodes, a payload that does not. *)
Lemma payload_cases (message : LiveServerMessage) (r : Readings) :
  carriesAudio (StreamMessage message r) = false
  \/ (exists b, chunkOf message = Some b)
  \/ undecodable message.
Proof.
  unfold carriesAudio.
  destruct (audioDataOf (serverContent message)) as [d|] eqn:Hd; [|by left].
  destruct (truthy d) eqn:Ht; [|by left].
  right. destruct (chunkOf message) as [b|] eqn:Hc; [left; by exists b|].
  right. by exists d.
Qed.

(** C7, as the code has it. When the payload of a message does not decode,
    the chunk is dropped: no source is created, and the active set, the
    browser objects, the status and the two handles are those from before the
    message. The cursor is not: it was raised to the output clock before the
    decoding. The accumulators and the log are what the transcription
    fields and the turn boundary of the same message make of them. *)
Theorem undecodable_payload_dropped (message : LiveServerMessage) (r : Readings)
    (s : App) :
  is_Some (audioContextsRef s) -> undecodable message ->
  let s' := onmessage message r s in
  let t := onmessage (textOnly message) r s in
  s' = set_nextStartTimeRef (Qmax (nextStartTimeRef s) (currentTime r)) t
  /\ sourcesRef s' = sourcesRef s
  /\ browser s' = browser s
  /\ status s' = status s
  /\ sessionRef s' = sessionRef s
  /\ audioContextsRef s' = audioContextsRef s
  /\ messages s' = messages t
  /\ transcriptionBufferRef s' = transcriptionBufferRef t.
Proof.
  intros Hctx Hu s' t. subst s' t.
  destruct (undecodable_carriesAudio message r Hu) as [Hc Hn].
  rewrite onmessage_cases. cbv zeta.
  rewrite Hc, Hn, bool_decide_eq_true_2 by done. simpl.
  destruct (onmessage_textOnly_frame message r s) as (tb & ms & ->).
  repeat split.
Qed.

(** The text half, field by field: the fragments of the message are in
    the accumulators before the boundary of the same message is looked at. *)
Lemma onmessage_text_result (message : LiveServerMessage) (c : ServerContent)
    (r : Readings) (s : App) :
  serverContent message = Some c ->
  let u := tb_user (transcriptionBufferRef s) ++ fragmentText (inputTranscription c) in
  let m := tb_model (transcriptionBufferRef s) ++ fragmentText (outputTranscription c) in
  let t := onmessage (textOnly message) r s in
  if turnComplete c
  then (exists new, messages t = messages s ++ new /\ said <$> new = spec_finalizeTurn u m)
       /\ transcriptionBufferRef t = emptyBuffer
  else messages t = messages s
       /\ transcriptionBufferRef t = {| tb_user := u; tb_model := m |}.
Proof.
  intros Hc u m t. subst t. rewrite onmessage_textOnly, Hc. cbv zeta.
  rewrite onmessage_fragments_eq. simpl.
  destruct (turnComplete c).
  - destruct (onmessage_turnComplete_eq r
                (set_transcriptionBufferRef {| tb_user := u; tb_model := m |} s))
      as (new & Hn & Hsaid).
    subst u m. rewrite Hn. split; [|reflexivity].
    exists new. split; [reflexivity | exact Hsaid].
  - split; reflexivity.
Qed.

(** C10, as the code has it. Within one message the fields are handled in
    the order of the source. The fragments come first: a turn boundary in the
    same message finalizes the accumulators with these fragments already
    appended (and without a boundary they stay in the accumulators). The audio
    payload comes after that, and the interruption flag is looked at last, if
    the handler gets that far. A message that carries a chunk and an
    interruption has its chunk started at the cursor and then stopped with the
    rest of the active set, which ends empty with the cursor at zero; a
    message that interrupts with no payload to play (none, an empty one, or no
    audio contexts to play it on) is the text half followed by [stopAudio];
    and a message whose payload does not decode ends at line 99, after the
    text half and the raising of the cursor: its interruption flag is not
    acted on, and the active set and the nodes stay as they were. *)
Theorem onmessage_field_order (message : LiveServerMessage) (c : ServerContent)
    (r : Readings) (s : App) :
  serverContent message = Some c ->
  let u := tb_user (transcriptionBufferRef s) ++ fragmentText (inputTranscription c) in
  let m := tb_model (transcriptionBufferRef s) ++ fragmentText (outputTranscription c) in
  let s' := onmessage message r s in
  (if turnComplete c
   then (exists new, messages s' = messages s ++ new /\ said <$> new = spec_finalizeTurn u m)
        /\ transcriptionBufferRef s' = emptyBuffer
   else messages s' = messages s
        /\ transcriptionBufferRef s' = {| tb_user := u; tb_model := m |})
  /\ (interrupted c = true ->
      forall b, chunkOf message = Some b -> is_Some (audioContextsRef s) ->
        nodes (browser s') !! length (nodes (browser s))
        = Some {| sn_buffer := b;
                  sn_when := Qmax (nextStartTimeRef s) (currentTime r);
                  sn_state := Stopped |}
        /\ length (nodes (browser s')) = S (length (nodes (browser s)))
        /\ sourcesRef s' = ∅ /\ nextStartTimeRef s' = 0)
  /\ (interrupted c = true ->
      carriesAudio (StreamMessage message r) = false \/ audioContextsRef s = None ->
      s' = stopAudio (onmessage (textOnly message) r s))
  /\ (undecodable message -> is_Some (audioContextsRef s) ->
      s' = set_nextStartTimeRef (Qmax (nextStartTimeRef s) (currentTime r))
             (onmessage (textOnly message) r s)
      /\ sourcesRef s' = sourcesRef s
      /\ nodes (browser s') = nodes (browser s)).
Proof.
  intros Hc u m s'. subst s'.
  destruct (onmessage_fields message r s) as (_ & Hm & _ & _ & Htb).
  split; [|split; [|split]].
  - rewrite Hm, Htb. exact (onmessage_text_result message c r s Hc).
  - intros Hi b Hb Hctx. rewrite onmessage_cases. cbv zeta.
    rewrite (enqueues_carriesAudio _ _ _ Hb), bool_decide_eq_true_2 by done.
    rewrite Hb, Hc. simpl. rewrite Hi.
    destruct (onmessage_textOnly_frame message r s) as (tb & ms & ->).
    simpl. split; [|split; [|split]]; try reflexivity.
    + rewrite stop_all_lookup, decide_True by set_solver.
      rewrite lookup_app_r, Nat.sub_diag by lia. reflexivity.
    + rewrite stop_all_length, length_app. simpl. lia.
  - intros Hi Hnone. rewrite onmessage_cases. cbv zeta.
    assert (Hskip : carriesAudio (StreamMessage message r)
                    && bool_decide (is_Some (audioContextsRef s)) = false).
    { destruct Hnone as [-> | ->]; [done|].
      rewrite bool_decide_eq_false_2 by (intros [? ?]; discriminate).
      apply andb_false_r. }
    rewrite Hskip, Hc. simpl. by rewrite Hi.
  - intros Hu Hctx.
    destruct (undecodable_carriesAudio message r Hu) as [Hca Hn].
    rewrite onmessage_cases. cbv zeta.
    rewrite Hca, Hn, bool_decide_eq_true_2 by done. simpl.
    destruct (onmessage_textOnly_frame message r s) as (tb & ms & ->).
    repeat split.
Qed.

End Handler.

(** ** The handler and the session status *)

Section Status.
Context `{AudioUtils}.

Lemma onmessage_fragments_set_status (st : SessionStatus) sc (s : App) :
  onmessage_fragments sc (set_status st s) = set_status st (onmessage_fragments sc s).
Proof.
  unfold onmessage_fragments.
  by destruct (sc ≫= inputTranscription), (sc ≫= outputTranscription).
Qed.

Lemma onmessage_turnComplete_set_status (st : SessionStatus) (r : Readings) (s : App) :
  onmessage_turnComplete r (set_status st s) = set_status st (onmessage_turnComplete r s).
Proof.
  unfold onmessage_turnComplete; simpl.
  by destruct (truthy _ || truthy _).
Qed.

Lemma onmessage_resume_set_status (st : SessionStatus) b intr (s : App) :
  onmessage_resume b intr (set_status st s) = set_status st (onmessage_resume b intr s).
Proof. by destruct b, intr. Qed.

(** C8, as the code has it. [onmessage] has no guard on the session status:
    it neither reads nor writes it, so a message is handled in the same way
    under every status. *)
Theorem onmessage_any_status (st : SessionStatus) (message : LiveServerMessage)
    (r : Readings) (s : App) :
  onmessage message r (set_status st s) = set_status st (onmessage message r s)
  /\ status (onmessage message r s) = status s.
Proof.
  split; [|apply onmessage_fields].
  unfold onmessage, onmessage_sync. cbv zeta.
  rewrite onmessage_fragments_set_status.
  set (s1 := onmessage_fragments (serverContent message) s).
  assert (Ht : (if flag turnComplete (serverContent message)
                then onmessage_turnComplete r (set_status st s1) else set_status st s1)
               = set_status st (if flag turnComplete (serverContent message)
                                then onmessage_turnComplete r s1 else s1)).
  { destruct (flag turnComplete (serverContent message));
      [apply onmessage_turnComplete_set_status | reflexivity]. }
  rewrite Ht.
  set (s2 := if flag turnComplete (serverContent message)
             then onmessage_turnComplete r s1 else s1).
  simpl.
  destruct (audioDataOf (serverContent message)) as [d|];
    [destruct (audioContextsRef s2); [destruct (truthy d); [destruct (decode d)|]|]|];
    simpl; try (by destruct (flag interrupted (serverContent message))); try reflexivity.
  apply (onmessage_resume_set_status st _ _
           (set_nextStartTimeRef (Qmax (nextStartTimeRef s2) (currentTime r)) s2)).
Qed.

End Status.

(** ** Stopping a session *)

Lemma closeCalls_close (i j : nat) (l : list nat) :
  closeCalls (close i l) j
  = if decide (i = j /\ j < length l)%nat then S (closeCalls l j) else closeCalls l j.
Proof.
  unfold closeCalls, close.
  destruct (decide (i = j)) as [->|Hne].
  - rewrite list_lookup_alter_eq.
    destruct (l !! j) as [n|] eqn:E; simpl.
    + rewrite decide_True; [done|]. split; [done|]. by eapply lookup_lt_Some.
    + rewrite decide_False; [done|]. intros [_ Hlt].
      apply lookup_ge_None in E. lia.
  - rewrite list_lookup_alter_ne by done.
    rewrite decide_False; [done|]. tauto.
Qed.

Lemma length_close (i : nat) (l : list nat) : length (close i l) = length l.
Proof. apply length_alter. Qed.

Lemma handleStopSession_fields (s : App) :
  let s1 := handleStopSession s in
  status s1 = IDLE /\ sourcesRef s1 = ∅ /\ nextStartTimeRef s1 = 0
  /\ messages s1 = messages s
  /\ transcriptionBufferRef s1 = transcriptionBufferRef s
  /\ sessionRef s1 = sessionRef s /\ audioContextsRef s1 = audioContextsRef s
  /\ nodes (browser s1)
     = set_fold (fun i l => alter try_stop i l) (nodes (browser s)) (sourcesRef s)
  /\ sessions (browser s1)
     = match sessionRef s with
       | Some i => close i (sessions (browser s))
       | None => sessions (browser s)
       end
  /\ contexts (browser s1)
     = match audioContextsRef s with
       | Some (i, o) => close o (close i (contexts (browser s)))
       | None => contexts (browser s)
       end
  /\ mediaStreams (browser s1) = mediaStreams (browser s).
Proof.
  destruct s as [st ms se ac so ne tb br]; unfold handleStopSession; simpl.
  destruct se, ac as [[i o]|]; repeat split.
Qed.

Lemma handleStartSession_closes_nothing (e : StartEnv) (s : App) :
  sessions (browser (handleStartSession e s)) = sessions (browser s)
  /\ (exists new, contexts (browser (handleStartSession e s)) = contexts (browser s) ++ new)
  /\ sourcesRef (handleStartSession e s) = sourcesRef s
  /\ nodes (browser (handleStartSession e s)) = nodes (browser s).
Proof.
  destruct s as [st ms se ac so ne tb br], e as [[] []];
    unfold handleStartSession; simpl; repeat split;
    solve [ by eexists | exists []; by rewrite app_nil_r ].
Qed.

(** C6, as the code has it. [handleStopSession] has no guard of its own and
    never clears the two handles. What a second call in a row leaves as it
    was is the component's own state: status idle, empty active set, cursor
    zero, log, accumulators, handles, source nodes. The objects behind the
    handles are closed once more by every call: the session and both audio
    contexts get a second [close()]. Only with no handle held does a call
    close nothing (on the initial state it changes nothing at all). What
    keeps a stop from being requested twice in a row is the button: a click
    reaches [handleStopSession] only while the status is [ACTIVE], so the
    click that follows a stop is a start, and under any status but [ACTIVE] a
    click closes no session and no existing context. *)
Theorem handleStopSession_unguarded (e : StartEnv) (s : App) :
  let s1 := handleStopSession s in
  let s2 := handleStopSession s1 in
  (status s1 = IDLE /\ status s2 = IDLE
   /\ sourcesRef s2 = sourcesRef s1 /\ nextStartTimeRef s2 = nextStartTimeRef s1
   /\ messages s2 = messages s1
   /\ transcriptionBufferRef s2 = transcriptionBufferRef s1
   /\ sessionRef s2 = sessionRef s /\ audioContextsRef s2 = audioContextsRef s
   /\ nodes (browser s2) = nodes (browser s1)
   /\ onClick e s1 = handleStartSession e s1)
  /\ (forall i, sessionRef s = Some i -> (i < length (sessions (browser s)))%nat ->
        closeCalls (sessions (browser s1)) i = S (closeCalls (sessions (browser s)) i)
        /\ closeCalls (sessions (browser s2)) i = S (S (closeCalls (sessions (browser s)) i)))
  /\ (forall i o, audioContextsRef s = Some (i, o) -> i <> o ->
        (i < length (contexts (browser s)))%nat ->
        (o < length (contexts (browser s)))%nat ->
        closeCalls (contexts (browser s2)) i = S (S (closeCalls (contexts (browser s)) i))
        /\ closeCalls (contexts (browser s2)) o = S (S (closeCalls (contexts (browser s)) o)))
  /\ (sessionRef s = None -> audioContextsRef s = None ->
        sessions (browser s1) = sessions (browser s)
        /\ contexts (browser s1) = contexts (browser s))
  /\ handleStopSession initial = initial
  /\ (status s <> ACTIVE ->
        sessions (browser (onClick e s)) = sessions (browser s)
        /\ forall j, (j < length (contexts (browser s)))%nat ->
             closeCalls (contexts (browser (onClick e s))) j
             = closeCalls (contexts (browser s)) j).
Proof.
  intros s1 s2.
  destruct (handleStopSession_fields s)
    as (Hst & Hso & Hne & Hms & Htb & Hse & Hac & Hno & Hss & Hcs & _).
  destruct (handleStopSession_fields s1)
    as (Hst' & Hso' & Hne' & Hms' & Htb' & Hse' & Hac' & Hno' & Hss' & Hcs' & _).
  fold s1 in Hst, Hso, Hne, Hms, Htb, Hse, Hac, Hno, Hss, Hcs.
  fold s1 s2 in Hst', Hso', Hne', Hms', Htb', Hse', Hac', Hno', Hss', Hcs'.
  split; [|split; [|split; [|split; [|split]]]].
  - repeat split; try congruence;
      first [ rewrite Hno', Hso; apply set_fold_empty
            | unfold onClick; by rewrite Hst ].
  - intros i Hi Hlt. rewrite Hss', Hse, Hss, Hi.
    rewrite !closeCalls_close, length_close.
    rewrite !decide_True by done. done.
  - intros i o Hio Hne_io Hi Ho. rewrite Hcs', Hac, Hcs, Hio.
    rewrite !closeCalls_close, !length_close.
    rewrite !(decide_True (P := i = i /\ _)) by done.
    rewrite !(decide_True (P := o = o /\ _)) by done.
    rewrite !(decide_False (P := o = i /\ _)) by (intros [? _]; congruence).
    rewrite !(decide_False (P := i = o /\ _)) by (intros [? _]; congruence).
    done.
  - intros Hn1 Hn2. by rewrite Hss, Hcs, Hn1, Hn2.
  - reflexivity.
  - intros Hact. unfold onClick.
    destruct (status s); try done.
    + destruct (handleStartSession_closes_nothing e s) as (-> & (new & ->) & _).
      split; [done|]. intros j Hj. unfold closeCalls. by rewrite lookup_app_l.
    + destruct (handleStartSession_closes_nothing e s) as (-> & (new & ->) & _).
      split; [done|]. intros j Hj. unfold closeCalls. by rewrite lookup_app_l.
Qed.

(** ** The active set and the end of playback *)

Section ActiveSet.
Context `{AudioUtils}.

(** The end of playback of sources changes browser objects only: there is
    no listener for it in the component. *)
Lemma run_ended (s : App) (ended : list nat) :
  exists b, run s (SourceEnded <$> ended) = set_browser b s.
Proof.
  revert s. induction ended as [|i ended IH]; intros s.
  - exists (browser s). by destruct s.
  - change (run s (SourceEnded <$> i :: ended))
      with (run (step s (SourceEnded i)) (SourceEnded <$> ended)).
    destruct (IH (step s (SourceEnded i))) as [b ->].
    exists b. by destruct s.
Qed.

(** C4, as the code has it. The component registers no completion callback:
    the natural end of playback of a source (which is no run of a handler,
    so that nothing is suspended by it and nothing can throw) changes the
    browser's node and nothing in the component. So it does not take the
    source out of the active set, which keeps a source that has finished; and
    it adds none: after any number of ends of playback the active set is what
    it was, and right after [stopAudio] and after any number of ends of
    playback that follow it, it is empty. *)
Theorem completion_leaves_active_set (s : App) (ended : list nat) :
  set_browser (browser s) (run s (SourceEnded <$> ended)) = s
  /\ sourcesRef (run s (SourceEnded <$> ended)) = sourcesRef s
  /\ sourcesRef (stopAudio s) = ∅
  /\ sourcesRef (run (stopAudio s) (SourceEnded <$> ended)) = ∅
  /\ (forall i n, i ∈ sourcesRef s -> nodes (browser s) !! i = Some n ->
        sn_state n = Started ->
        i ∈ sourcesRef (step s (SourceEnded i))
        /\ nodes (browser (step s (SourceEnded i))) !! i = Some (node_end n)
        /\ sn_state (node_end n) = Ended).
Proof.
  split; [|split; [|split; [|split]]].
  - destruct (run_ended s ended) as [b ->]. by destruct s.
  - by destruct (run_ended s ended) as [b ->].
  - reflexivity.
  - by destruct (run_ended (stopAudio s) ended) as [b ->].
  - intros i n Hi Hn Hst. split; [exact Hi|]. split.
    + simpl. by rewrite list_lookup_alter_eq, Hn.
    + unfold node_end. by rewrite Hst.
Qed.

End ActiveSet.

(** ** Overlapping runs of the handler *)

Lemma backToBack_snoc (l : list SourceNode) (x : SourceNode) :
  backToBack l -> Forall (fun n => node_finish n <= sn_when x) l ->
  backToBack (l ++ [x]).
Proof.
  intros Hl Hx i a b Ha Hb.
  destruct (decide (S i < length l)%nat) as [Hlt|Hge].
  - rewrite lookup_app_l in Ha by lia. rewrite lookup_app_l in Hb by lia.
    by apply (Hl i).
  - assert (Hi : (i < length l)%nat).
    { apply lookup_lt_Some in Hb. rewrite length_app in Hb. simpl in Hb. lia. }
    rewrite lookup_app_l in Ha by lia.
    rewrite lookup_app_r in Hb by lia.
    replace (S i - length l)%nat with 0%nat in Hb by lia.
    injection Hb as <-.
    rewrite Forall_lookup in Hx. specialize (Hx i a Ha). simpl in Hx.
    split; [exact Hx|].
    unfold node_finish in Hx. pose proof (duration_nonneg (sn_buffer a)). lra.
Qed.

Section Overlap.
Context `{AudioUtils}.

(** A run of the handler with nothing in between is an arrival followed at
    once by its own continuation. *)
Lemma act_arrive_settle (message : LiveServerMessage) (r : Readings) (s : App) :
  (acts (s, []) [Arrive message r; Settle 0]).1 = onmessage message r s.
Proof.
  unfold acts, onmessage; simpl.
  by destruct (onmessage_sync message r s) as [s' [| |b i]].
Qed.

Lemma onmessage_sync_calm (message : LiveServerMessage) (r : Readings) (s : App) :
  flag interrupted (serverContent message) = false ->
  nodes (browser (onmessage_sync message r s).1) = nodes (browser s)
  /\ nextStartTimeRef s <= nextStartTimeRef (onmessage_sync message r s).1
  /\ match (onmessage_sync message r s).2 with
     | AwaitDecode _ intr => intr = false
     | Completed | Threw => True
     end.
Proof.
  intros Hi.
  destruct (onmessage_textOnly_frame message r s) as (tb & ms & Ht).
  rewrite onmessage_textOnly in Ht. cbv zeta in Ht.
  unfold onmessage_sync. cbv zeta. rewrite Ht, Hi. simpl.
  destruct (audioDataOf (serverContent message)) as [d|];
    [destruct (audioContextsRef s); [destruct (truthy d); [destruct (decode d)|]|]|];
    simpl; repeat split; try apply Qle_refl; apply Q.le_max_l.
Qed.

Lemma scheduledSince_arrive (s0 s : App) (message : LiveServerMessage) (r : Readings) :
  flag interrupted (serverContent message) = false ->
  scheduledSince s0 s -> scheduledSince s0 (onmessage_sync message r s).1.
Proof.
  intros Hi (new & Hn & Hb & Hf).
  destruct (onmessage_sync_calm message r s Hi) as (Hn' & Hc & _).
  exists new. rewrite Hn'. split; [exact Hn|]. split; [exact Hb|].
  eapply Forall_impl; [exact Hf|]. intros n Hle. simpl in Hle. lra.
Qed.

Lemma scheduledSince_settle (s0 s : App) (b : option AudioBuffer) :
  scheduledSince s0 s -> scheduledSince s0 (onmessage_resume b false s).
Proof.
  intros (new & Hn & Hb & Hf). destruct b as [b|]; simpl.
  - exists (new ++ [startedNode (nextStartTimeRef s, b)]).
    rewrite Hn, app_assoc. split; [reflexivity|]. split.
    + by apply backToBack_snoc.
    + apply Forall_app. split.
      * eapply Forall_impl; [exact Hf|]. intros n Hle. simpl in *.
        pose proof (duration_nonneg b). lra.
      * constructor; [|constructor]. unfold node_finish; simpl. apply Qle_refl.
  - by exists new.
Qed.

(** The scheduler under overlapping runs. Whatever the order in which
    messages arrive and suspended runs go on, as long as no message
    interrupts: the handler only adds source nodes, and each one starts no
    earlier than the one created before it ends, so that start times never
    decrease. *)
Lemma overlapping_runs_back_to_back (s : App) (l : list Action) :
  Forall calm l ->
  exists new,
    nodes (browser (acts (s, []) l).1) = nodes (browser s) ++ new
    /\ backToBack new.
Proof.
  intros Hl.
  assert (Hinv : forall st,
             scheduledSince s st.1 /\ Forall (fun p => pd_intr p = false) st.2 ->
             scheduledSince s (acts st l).1).
  { induction Hl as [|a l Ha _ IH]; intros [s1 waiting] [Hs Hw]; simpl in *.
    - exact Hs.
    - apply IH. destruct a as [message r|k]; simpl in *.
      + pose proof (scheduledSince_arrive s s1 message r Ha Hs) as Hs'.
        destruct (onmessage_sync_calm message r s1 Ha) as (_ & _ & Hk).
        destruct (onmessage_sync message r s1) as [s' [| |b i]]; simpl in *;
          try (split; [exact Hs' | exact Hw]).
        split; [exact Hs'|]. apply Forall_app. split; [exact Hw|].
        by constructor.
      + destruct (waiting !! k) as [p|] eqn:Ek; simpl; [|by split].
        pose proof (Forall_lookup_1 _ _ _ _ Hw Ek) as Hp. simpl in Hp.
        rewrite Hp. split; [by apply scheduledSince_settle|].
        by apply Forall_delete. }
  destruct (Hinv (s, [])) as (new & Hn & Hb & _).
  - split; [|constructor]. exists []. rewrite app_nil_r.
    split; [reflexivity|]. split; [|constructor]. intros i a b Ha; discriminate.
  - by exists new.
Qed.

End Overlap.

(** ** Message identities *)

Lemma lit_inj (a b : string) : lit a = lit b -> a = b.
Proof.
  unfold lit. intros Heq.
  rewrite <- (String.string_of_list_ascii_of_string a),
          <- (String.string_of_list_ascii_of_string b).
  f_equal. revert Heq.
  generalize (String.list_ascii_of_string a) (String.list_ascii_of_string b).
  induction l as [|x l IH]; intros [|y l'] Heq; simpl in *; try discriminate.
  - reflexivity.
  - injection Heq as Hxy Hl.
    rewrite <- (Ascii.ascii_N_embedding x), <- (Ascii.ascii_N_embedding y), Hxy.
    f_equal. by apply IH.
Qed.

Lemma to_int_regular (z : Z) :
  Z.to_int z <> Decimal.Pos Decimal.Nil /\ Z.to_int z <> Decimal.Neg Decimal.Nil.
Proof.
  destruct z as [|p|p]; simpl; split; try discriminate;
    intros [= Hp]; by apply DecimalPos.Unsigned.to_uint_nonnil in Hp.
Qed.

Lemma ofInteger_inj (a b : Z) : ofInteger a = ofInteger b -> a = b.
Proof.
  unfold ofInteger. intros Heq%lit_inj.
  apply DecimalZ.to_int_inj.
  destruct (to_int_regular a) as [Ha1 Ha2], (to_int_regular b) as [Hb1 Hb2].
  pose proof (NilZero.isi _ Ha1 Ha2) as Ha.
  pose proof (NilZero.isi _ Hb1 Hb2) as Hb.
  rewrite Heq in Ha. congruence.
Qed.

Lemma idOf_inj (ro ro' : Role) (t t' : Z) :
  idOf ro t = idOf ro' t' -> ro = ro' /\ t = t'.
Proof.
  unfold idOf. destruct ro, ro'; simpl; intros Heq.
  - injection Heq as Heq. split; [done | by apply ofInteger_inj].
  - discriminate.
  - discriminate.
  - injection Heq as Heq. split; [done | by apply ofInteger_inj].
Qed.

Section Identities.
Context `{AudioUtils}.

(** The messages a turn boundary appends: at most one of each role, each
    with an [id] made of its role and of a reading of this run. *)
Lemma onmessage_turnComplete_ids (r : Readings) (s : App) :
  exists new,
    messages (onmessage_turnComplete r s) = messages s ++ new
    /\ Forall (fun c => exists k, id c = idOf (role c) (Date_now r k)) new
    /\ NoDup (role <$> new).
Proof.
  unfold onmessage_turnComplete.
  destruct (trim (tb_user (transcriptionBufferRef s))) as [|a u];
    destruct (trim (tb_model (transcriptionBufferRef s))) as [|b m]; simpl.
  - exists []. rewrite app_nil_r. repeat constructor.
  - eexists. split; [reflexivity|]. split.
    + repeat constructor. by exists 0%nat.
    + repeat constructor. set_solver.
  - eexists. split; [reflexivity|]. split.
    + repeat constructor. by exists 0%nat.
    + repeat constructor. set_solver.
  - eexists. split; [reflexivity|]. split.
    + repeat constructor; [by exists 0%nat | by exists 2%nat].
    + repeat constructor; set_solver.
Qed.

Lemma onmessage_log (message : LiveServerMessage) (r : Readings) (s : App) :
  exists new,
    messages (onmessage message r s) = messages s ++ new
    /\ Forall (fun c => exists k, id c = idOf (role c) (Date_now r k)) new
    /\ NoDup (role <$> new).
Proof.
  destruct (onmessage_fields message r s) as (_ & -> & _).
  rewrite onmessage_textOnly. cbv zeta. rewrite onmessage_fragments_eq.
  destruct (flag turnComplete (serverContent message)).
  - apply (onmessage_turnComplete_ids r
             (set_transcriptionBufferRef
                {| tb_user := tb_user (transcriptionBufferRef s)
                     ++ fragmentText (serverContent message ≫= inputTranscription);
                   tb_model := tb_model (transcriptionBufferRef s)
                     ++ fragmentText (serverContent message ≫= outputTranscription) |} s)).
  - exists []. simpl. rewrite app_nil_r. repeat constructor.
Qed.

Lemma step_log_other (s : App) (ev : Event) :
  match ev with
  | StreamMessage _ _ => True
  | _ => messages (step s ev) = messages s
  end.
Proof.
  destruct ev as [e| | | |message r| | |i]; simpl; try done.
  unfold onClick. destruct (status s); try done.
  - by destruct s as [st ms se ac so ne tb br], e as [[] []].
  - by destruct (handleStopSession_fields s) as (_ & _ & _ & -> & _).
  - by destruct s as [st ms se ac so ne tb br], e as [[] []].
Qed.

Lemma stamped_weaken (past : list Readings) (r : Readings) (log : list ChatMessage) :
  stamped past log -> stamped (r :: past) log.
Proof.
  unfold stamped. intros Hlog. eapply Forall_impl; [exact Hlog|].
  intros c (r' & k & Hr & Hid).
  exists r', k. split; [set_solver | done].
Qed.

(** When uniqueness holds: if no two runs of the handler read the same
    millisecond, the [id]s of the log stay pairwise different. *)
Lemma ids_unique_across_milliseconds (evs : list Event) (past : list Readings)
    (s : App) :
  stamped past (messages s) -> NoDup (id <$> messages s) ->
  Forall (fun r => Forall (apart r) past) (readingsOf evs) ->
  distinctClocks (readingsOf evs) ->
  NoDup (id <$> messages (run s evs)).
Proof.
  revert past s. induction evs as [|ev evs IH]; intros past s Hst Hnd Hfresh Hdist.
  - exact Hnd.
  - change (run s (ev :: evs)) with (run (step s ev) evs).
    pose proof (step_log_other s ev) as Hother.
    destruct ev as [e| | | |message r| | |i];
      try (simpl in Hfresh, Hdist; apply (IH past); [by rewrite Hother | by rewrite Hother | done | done]).
    simpl in Hfresh, Hdist. simpl step.
    apply Forall_cons in Hfresh as [Hr Hfresh]. destruct Hdist as [Hrest Hdist].
    destruct (onmessage_log message r s) as (new & Hlog & Hnew & Hroles).
    apply (IH (r :: past)).
    + rewrite Hlog. unfold stamped. apply Forall_app. split.
      * by apply stamped_weaken.
      * eapply Forall_impl; [exact Hnew|]. intros c [k Hk].
        exists r, k. split; [set_solver | done].
    + rewrite Hlog, fmap_app. apply NoDup_app. split; [exact Hnd|]. split.
      * intros x Hx Hx'.
        apply list_elem_of_fmap in Hx as (c & -> & Hc).
        apply list_elem_of_fmap in Hx' as (c' & Hcc' & Hc').
        unfold stamped in Hst. rewrite Forall_forall in Hst, Hnew.
        destruct (Hst c Hc) as (r' & k' & Hr' & Hid).
        destruct (Hnew c' Hc') as (k & Hid').
        rewrite Hid, Hid' in Hcc'. apply idOf_inj in Hcc' as [_ Heq].
        rewrite Forall_forall in Hr. by apply (Hr r' Hr' k k').
      * clear -Hnew Hroles. induction new as [|c new IHn]; [constructor|].
        apply Forall_cons in Hnew as [[k Hk] Hnew].
        simpl in Hroles. apply NoDup_cons in Hroles as [Hc Hroles].
        simpl. apply NoDup_cons. split; [|by apply IHn].
        intros Hin. apply list_elem_of_fmap in Hin as (c' & Hcc' & Hc').
        rewrite Forall_forall in Hnew. destruct (Hnew c' Hc') as [k' Hk'].
        rewrite Hk, Hk' in Hcc'. apply idOf_inj in Hcc' as [Hro _].
        apply Hc. apply list_elem_of_fmap. by exists c'.
    + rewrite Forall_forall in Hfresh, Hrest |- *. intros r'' Hr''.
      apply Forall_cons. split; [|by apply Hfresh].
      intros k k' Heq. by apply (Hrest r'' Hr'' k' k).
    + exact Hdist.
Qed.

End Identities.

(** * Further properties *)

(** ** Trimming *)

Lemma trimStart_tight (c : N) (t : jsstring) :
  isWhiteSpace c = false -> trimStart (c :: t) = c :: t.
Proof. intros Hc. simpl. by rewrite Hc. Qed.

Lemma trimStart_cases (t : jsstring) :
  (trimStart t = [] /\ allWhiteSpace t)
  \/ (exists c u, trimStart t = c :: u /\ isWhiteSpace c = false).
Proof.
  induction t as [|c t IH]; simpl.
  - left. split; [done | constructor].
  - destruct (isWhiteSpace c) eqn:Hc.
    + destruct IH as [[Hn Hall]|IH]; [left | by right].
      split; [done | by constructor].
    + right. by exists c, t.
Qed.

Lemma trimStart_white (t : jsstring) : allWhiteSpace t -> trimStart t = [].
Proof.
  induction 1 as [|c t Hc _ IH]; simpl; [done|]. by rewrite Hc.
Qed.

Lemma trimStart_snoc (t : jsstring) (c : N) :
  isWhiteSpace c = false -> trimStart (t ++ [c]) = trimStart t ++ [c].
Proof.
  intros Hc. induction t as [|a t IH]; simpl.
  - by rewrite Hc.
  - by destruct (isWhiteSpace a).
Qed.

(** [trim] leaves nothing exactly when the text is white space only;
    otherwise what it leaves starts and ends with something else. *)
Lemma trim_cases (t : jsstring) :
  (trim t = [] /\ allWhiteSpace t) \/ (tight (trim t) /\ ~ allWhiteSpace t).
Proof.
  unfold trim, trimEnd.
  destruct (trimStart_cases t) as [[Hn Hall]|(c & u & Hcu & Hc)].
  - left. rewrite Hn. done.
  - right. split.
    + rewrite Hcu, reverse_cons, trimStart_snoc, reverse_app by done. simpl.
      split; [by exists c|].
      rewrite <- head_reverse, reverse_cons, reverse_involutive.
      destruct (trimStart_cases (reverse u)) as [[-> _]|(z & w & -> & Hz)]; simpl.
      * by exists c.
      * by exists z.
    + intros Hall. apply trimStart_white in Hall. congruence.
Qed.

Lemma trim_nil_iff (t : jsstring) : trim t = [] <-> allWhiteSpace t.
Proof.
  destruct (trim_cases t) as [[Hn Hall]|[[(c & Hc & _) _] Hnot]].
  - done.
  - split; [|done]. intros Hn. rewrite Hn in Hc. discriminate.
Qed.

Lemma tight_trimStart (t : jsstring) : tight t -> trimStart t = t.
Proof.
  intros [(c & Hc & Hw) _]. destruct t as [|a t]; [discriminate|].
  injection Hc as ->. by apply trimStart_tight.
Qed.

(** Trimming a second time changes nothing. *)
Lemma trim_idemp (t : jsstring) : trim (trim t) = trim t.
Proof.
  destruct (trim_cases t) as [[-> _]|[Ht _]]; [done|].
  unfold trim at 1. rewrite (tight_trimStart _ Ht).
  unfold trimEnd. rewrite tight_trimStart; [apply reverse_involutive|].
  destruct Ht as [(c & Hc & Hw) (z & Hz & Hzw)].
  split.
  - exists z. by rewrite head_reverse.
  - exists c. by rewrite last_reverse.
Qed.

(** ** The conversation log *)

Section Log.
Context `{AudioUtils}.

(** What a turn boundary appends: texts that are trimmed and not empty,
    under an [id] made of the role and of a reading of the run. *)
Lemma onmessage_turnComplete_new (r : Readings) (s : App) :
  exists new,
    messages (onmessage_turnComplete r s) = messages s ++ new
    /\ Forall (fun c => tight (text c) /\ trim (text c) = text c
                        /\ exists k, id c = idOf (role c) (Date_now r k)) new.
Proof.
  unfold onmessage_turnComplete.
  pose proof (trim_cases (tb_user (transcriptionBufferRef s))) as Hu.
  pose proof (trim_cases (tb_model (transcriptionBufferRef s))) as Hm.
  pose proof (trim_idemp (tb_user (transcriptionBufferRef s))) as Hu'.
  pose proof (trim_idemp (tb_model (transcriptionBufferRef s))) as Hm'.
  destruct (trim (tb_user (transcriptionBufferRef s))) as [|a u];
    destruct (trim (tb_model (transcriptionBufferRef s))) as [|b m]; simpl.
  - exists []. rewrite app_nil_r. split; [done | constructor].
  - destruct Hm as [[? _]|[Hm _]]; [done|].
    eexists. split; [reflexivity|]. constructor; [|constructor].
    split; [exact Hm|]. split; [exact Hm'|]. by exists 0%nat.
  - destruct Hu as [[? _]|[Hu _]]; [done|].
    eexists. split; [reflexivity|]. constructor; [|constructor].
    split; [exact Hu|]. split; [exact Hu'|]. by exists 0%nat.
  - destruct Hu as [[? _]|[Hu _]]; [done|]. destruct Hm as [[? _]|[Hm _]]; [done|].
    eexists. split; [reflexivity|]. constructor; [|constructor; [|constructor]].
    + split; [exact Hu|]. split; [exact Hu'|]. by exists 0%nat.
    + split; [exact Hm|]. split; [exact Hm'|]. by exists 2%nat.
Qed.

Lemma step_log (s : App) (ev : Event) :
  exists new,
    messages (step s ev) = messages s ++ new
    /\ Forall (fun c => tight (text c) /\ trim (text c) = text c
                        /\ exists t, id c = idOf (role c) t) new.
Proof.
  pose proof (step_log_other s ev) as Hother.
  destruct ev as [e| | | |message r| | |i];
    try (exists []; rewrite app_nil_r; split; [exact Hother | constructor]).
  simpl. destruct (onmessage_fields message r s) as (_ & -> & _).
  rewrite onmessage_textOnly. cbv zeta. rewrite onmessage_fragments_eq.
  destruct (flag turnComplete (serverContent message)).
  - match goal with
    | |- context [onmessage_turnComplete r ?s1] =>
        destruct (onmessage_turnComplete_new r s1) as (new & Hn & Hnew)
    end.
    exists new. split; [exact Hn|].
    eapply Forall_impl; [exact Hnew|]. intros c (Ht & Hi & k & Hk). eauto.
  - exists []. simpl. rewrite app_nil_r. split; [done | constructor].
Qed.

(** The log only grows, by finalized turns. Whatever events the component
    meets, the log it had is a prefix of the log it ends with, and every
    message that was added has a text that is not empty, has no white space at
    either end (trimming it again changes nothing), and an [id] made of its
    role and a clock reading. *)
Theorem log_only_grows (s : App) (evs : list Event) :
  exists new,
    messages (run s evs) = messages s ++ new
    /\ Forall (fun c => tight (text c) /\ trim (text c) = text c
                        /\ exists t, id c = idOf (role c) t) new.
Proof.
  revert s. induction evs as [|ev evs IH]; intros s.
  - exists []. simpl. rewrite app_nil_r. split; [done | constructor].
  - change (run s (ev :: evs)) with (run (step s ev) evs).
    destruct (IH (step s ev)) as (new2 & Hn2 & Hnew2).
    destruct (step_log s ev) as (new1 & Hn1 & Hnew1).
    exists (new1 ++ new2). rewrite Hn2, Hn1, app_assoc.
    split; [done | by apply Forall_app].
Qed.

(** One message without a turn boundary: its fragments go to the end of
    the accumulators and the log stays. *)
Lemma onmessage_accumulates (message : LiveServerMessage) (r : Readings) (s : App) :
  flag turnComplete (serverContent message) = false ->
  transcriptionBufferRef (onmessage message r s)
  = {| tb_user := tb_user (transcriptionBufferRef s)
                  ++ fragmentText (serverContent message ≫= inputTranscription);
       tb_model := tb_model (transcriptionBufferRef s)
                   ++ fragmentText (serverContent message ≫= outputTranscription) |}
  /\ messages (onmessage message r s) = messages s.
Proof.
  intros Htc. destruct (onmessage_fields message r s) as (_ & -> & _ & _ & ->).
  rewrite onmessage_textOnly. cbv zeta. rewrite Htc, onmessage_fragments_eq. done.
Qed.

(** Fragments add up across messages. Over any messages without a turn
    boundary (whatever else they carry) each accumulator ends as what it was
    followed by the fragments of its role in the order of arrival, and the
    log is untouched; a boundary after them appends the trimmed whole, not the
    trimmed pieces. *)
Theorem fragments_accumulate (ms : list (LiveServerMessage * Readings)) (s : App) :
  Forall (fun x => flag turnComplete (serverContent x.1) = false) ms ->
  let s' := run s (messageEvents ms) in
  transcriptionBufferRef s'
  = {| tb_user := tb_user (transcriptionBufferRef s) ++ userFragments ms;
       tb_model := tb_model (transcriptionBufferRef s) ++ modelFragments ms |}
  /\ messages s' = messages s
  /\ forall r, exists new,
       messages (onmessage turnCompleteOnly r s') = messages s ++ new
       /\ said <$> new
          = spec_finalizeTurn (tb_user (transcriptionBufferRef s) ++ userFragments ms)
              (tb_model (transcriptionBufferRef s) ++ modelFragments ms).
Proof.
  intros Hms s'.
  assert (Hrun : transcriptionBufferRef s'
                 = {| tb_user := tb_user (transcriptionBufferRef s) ++ userFragments ms;
                      tb_model := tb_model (transcriptionBufferRef s) ++ modelFragments ms |}
                 /\ messages s' = messages s).
  { subst s'. revert s. induction Hms as [|[m r] ms Hm _ IH]; intros s.
    - unfold userFragments, modelFragments. simpl. rewrite !app_nil_r.
      by destruct (transcriptionBufferRef s).
    - change (run s (messageEvents ((m, r) :: ms)))
        with (run (onmessage m r s) (messageEvents ms)).
      destruct (IH (onmessage m r s)) as [-> ->].
      destruct (onmessage_accumulates m r s Hm) as [-> ->].
      unfold userFragments, modelFragments. simpl. by rewrite <- !app_assoc. }
  destruct Hrun as [Htb Hlog]. split; [exact Htb|]. split; [exact Hlog|].
  intros r. rewrite onmessage_turnCompleteOnly.
  destruct (onmessage_turnComplete_eq r s') as (new & -> & Hsaid).
  exists new. simpl. rewrite Hlog, Hsaid, Htb. done.
Qed.

(** A turn of white space. A turn boundary leaves the log as it is exactly
    when both accumulators hold nothing but white space (or nothing); the
    accumulators are emptied either way. *)
Theorem blank_turn_appends_nothing (r : Readings) (s : App) :
  let s' := onmessage turnCompleteOnly r s in
  (messages s' = messages s
   <-> allWhiteSpace (tb_user (transcriptionBufferRef s))
       /\ allWhiteSpace (tb_model (transcriptionBufferRef s)))
  /\ transcriptionBufferRef s' = emptyBuffer.
Proof.
  intros s'. subst s'. rewrite onmessage_turnCompleteOnly.
  destruct (onmessage_turnComplete_eq r s) as (new & -> & Hsaid). simpl.
  split; [|done].
  rewrite <- !trim_nil_iff. unfold spec_finalizeTurn in Hsaid.
  split.
  - intros Heq. rewrite <- (app_nil_r (messages s)) in Heq at 2.
    apply app_inv_head in Heq. subst new. simpl in Hsaid.
    destruct (decide (trim (tb_user (transcriptionBufferRef s)) = [])),
             (decide (trim (tb_model (transcriptionBufferRef s)) = []));
      try done; discriminate.
  - intros [Hu Hm]. rewrite !decide_True in Hsaid by done.
    apply fmap_nil_inv in Hsaid. subst new. by rewrite app_nil_r.
Qed.

End Log.

(** ** Messages with nothing to play *)

(** Only the first part of a model turn is looked at: payloads in later
    parts are never played, and the message is handled as if they were not
    there. *)
Theorem later_parts_ignored `{AudioUtils} (message : LiveServerMessage)
    (r : Readings) (s : App) :
  onmessage message r s = onmessage (firstPartOnly message) r s.
Proof.
  destruct message as [[[i o tc [[ps]|] it]|]]; try reflexivity.
  by destruct ps.
Qed.

Lemma onmessage_textOnly_utils (U1 U2 : AudioUtils) (message : LiveServerMessage)
    (r : Readings) (s : App) :
  @onmessage U1 (textOnly message) r s = @onmessage U2 (textOnly message) r s.
Proof. by rewrite (@onmessage_textOnly U1), (@onmessage_textOnly U2). Qed.

(** Audio before any start. While no audio contexts are held, a message is
    handled as its text half followed by the interruption, if it has one: its
    payload is not decoded (the two helpers have no say in the outcome, so a
    payload that would not decode does no harm), no source node is made, and
    without an interruption the cursor and the active set stay as they are. A
    message without [serverContent] changes nothing at all. *)
Theorem audio_without_contexts (U1 U2 : AudioUtils) (message : LiveServerMessage)
    (r : Readings) (s : App) :
  (audioContextsRef s = None ->
   @onmessage U1 message r s
   = (if flag interrupted (serverContent message)
      then stopAudio (@onmessage U1 (textOnly message) r s)
      else @onmessage U1 (textOnly message) r s)
   /\ @onmessage U1 message r s = @onmessage U2 message r s
   /\ length (nodes (browser (@onmessage U1 message r s))) = length (nodes (browser s))
   /\ (flag interrupted (serverContent message) = false ->
       nextStartTimeRef (@onmessage U1 message r s) = nextStartTimeRef s
       /\ sourcesRef (@onmessage U1 message r s) = sourcesRef s
       /\ browser (@onmessage U1 message r s) = browser s))
  /\ @onmessage U1 {| serverContent := None |} r s = s.
Proof.
  split; [|reflexivity].
  intros Hctx.
  assert (Hshape : forall U : AudioUtils,
             @onmessage U message r s
             = (if flag interrupted (serverContent message)
                then stopAudio (@onmessage U (textOnly message) r s)
                else @onmessage U (textOnly message) r s)).
  { intros U. rewrite (@onmessage_cases U). cbv zeta. rewrite Hctx.
    rewrite bool_decide_eq_false_2 by (intros [? ?]; discriminate).
    by rewrite andb_false_r. }
  split; [apply Hshape|]. split.
  - rewrite (Hshape U1), (Hshape U2). by rewrite (onmessage_textOnly_utils U1 U2).
  - rewrite (Hshape U1).
    destruct (@onmessage_textOnly_frame U1 message r s) as (tb & ms & ->).
    split.
    + destruct (flag interrupted (serverContent message)); simpl; [|done].
      apply stop_all_length.
    + intros ->. done.
Qed.

(** ** What every reachable state has *)

Lemma try_stop_not_created (n : SourceNode) :
  sn_state n <> Created -> sn_state (try_stop n) <> Created.
Proof. by destruct n as [b w []]. Qed.

Lemma node_end_not_created (n : SourceNode) :
  sn_state n <> Created -> sn_state (node_end n) <> Created.
Proof. by destruct n as [b w []]. Qed.

Lemma node_stop_started (n : SourceNode) :
  sn_state n <> Created -> node_stop n = Some (try_stop n).
Proof. by destruct n as [b w []]. Qed.

Lemma stop_all_not_created (X : gset nat) (ns : list SourceNode) :
  Forall (fun n => sn_state n <> Created) ns ->
  Forall (fun n => sn_state n <> Created)
    (set_fold (fun i l => alter try_stop i l) ns X).
Proof.
  rewrite !Forall_lookup. intros Hns j n. rewrite stop_all_lookup.
  destruct (decide (j ∈ X)); [|apply Hns].
  destruct (ns !! j) as [n0|] eqn:E; simpl; [|done].
  intros [= <-]. apply try_stop_not_created. by apply (Hns j).
Qed.

Lemma wellFormed_initial : wellFormed initial.
Proof.
  split; [|split; [|split]]; done.
Qed.

Lemma wellFormed_stopAudio (s : App) : wellFormed s -> wellFormed (stopAudio s).
Proof.
  intros (Hse & Hac & Hso & Hno). split; [|split; [|split]]; simpl.
  - exact Hse.
  - exact Hac.
  - intros i Hi. set_solver.
  - by apply stop_all_not_created.
Qed.

(** A change of the log, the accumulators, the cursor or the status, or an
    alert, does not matter. *)
Lemma wellFormed_same (s s' : App) :
  sessionRef s' = sessionRef s -> audioContextsRef s' = audioContextsRef s ->
  sourcesRef s' = sourcesRef s -> nodes (browser s') = nodes (browser s) ->
  sessions (browser s') = sessions (browser s) ->
  contexts (browser s') = contexts (browser s) ->
  wellFormed s -> wellFormed s'.
Proof.
  unfold wellFormed. intros -> -> -> -> -> ->. done.
Qed.

Section Reachable.
Context `{AudioUtils}.

Lemma wellFormed_resume (b : option AudioBuffer) (intr : bool) (s : App) :
  wellFormed s -> wellFormed (onmessage_resume b intr s).
Proof.
  intros Hs. destruct b as [b|]; simpl; [|done].
  assert (Hs' : wellFormed
                  (set_sourcesRef ({[length (nodes (browser s))]} ∪ sourcesRef s)
                     (set_nextStartTimeRef (nextStartTimeRef s + duration b)
                        (set_browser
                           (set_nodes
                              (nodes (browser s)
                               ++ [{| sn_buffer := b; sn_when := nextStartTimeRef s;
                                      sn_state := Started |}]) (browser s)) s)))).
  { destruct Hs as (Hse & Hac & Hso & Hno). split; [|split; [|split]]; simpl.
    - exact Hse.
    - exact Hac.
    - intros i Hi. rewrite length_app. simpl.
      apply elem_of_union in Hi as [Hi%elem_of_singleton|Hi]; [lia|].
      specialize (Hso i Hi). lia.
    - apply Forall_app. split; [exact Hno|]. by repeat constructor. }
  destruct intr; [by apply wellFormed_stopAudio | exact Hs'].
Qed.

Lemma wellFormed_onmessage (message : LiveServerMessage) (r : Readings) (s : App) :
  wellFormed s -> wellFormed (onmessage message r s).
Proof.
  intros Hs. rewrite onmessage_cases. cbv zeta.
  destruct (onmessage_textOnly_frame message r s) as (tb & ms & ->).
  assert (Ht : wellFormed (set_transcriptionBufferRef tb (set_messages ms s)))
    by (by apply (wellFormed_same s)).
  destruct (carriesAudio _ && _).
  - assert (Ht1 : wellFormed
                    (set_nextStartTimeRef (Qmax (nextStartTimeRef s) (currentTime r))
                       (set_transcriptionBufferRef tb (set_messages ms s))))
      by (by apply (wellFormed_same s)).
    destruct (chunkOf message); [by apply wellFormed_resume | exact Ht1].
  - destruct (flag interrupted (serverContent message));
      [by apply wellFormed_stopAudio | exact Ht].
Qed.

Lemma wellFormed_handleStopSession (s : App) :
  wellFormed s -> wellFormed (handleStopSession s).
Proof.
  intros (Hse & Hac & Hso & Hno).
  destruct (handleStopSession_fields s)
    as (_ & Hso' & _ & _ & _ & Hse' & Hac' & Hno' & Hss' & Hcs' & _).
  split; [|split; [|split]].
  - intros i Hi. rewrite Hse' in Hi. rewrite Hss'.
    destruct (sessionRef s); [rewrite length_close|]; by apply Hse.
  - intros i o Hio. rewrite Hac' in Hio. rewrite Hcs', Hio, !length_close.
    by apply Hac.
  - intros i Hi. rewrite Hso' in Hi. set_solver.
  - rewrite Hno'. by apply stop_all_not_created.
Qed.

Lemma wellFormed_handleStartSession (e : StartEnv) (s : App) :
  wellFormed s -> wellFormed (handleStartSession e s).
Proof.
  intros (Hse & Hac & Hso & Hno).
  assert (Hfail : wellFormed (handleStartSession_catch (set_status CONNECTING s)))
    by (by apply (wellFormed_same s)).
  unfold handleStartSession. destruct (apiKey e); simpl; [|exact Hfail].
  assert (Hctx : wellFormed
                   (set_audioContextsRef
                      (Some (length (contexts (browser s)), S (length (contexts (browser s)))))
                      (set_browser
                         (set_contexts (contexts (browser s) ++ [0; 0]%nat) (browser s))
                         (set_status CONNECTING s)))).
  { split; [|split; [|split]]; simpl; try done.
    intros i o [= <- <-]. rewrite length_app. simpl. split; [done | lia]. }
  destruct (microphone e); simpl; by eapply wellFormed_same; [..|exact Hctx].
Qed.

Lemma wellFormed_step (s : App) (ev : Event) : wellFormed s -> wellFormed (step s ev).
Proof.
  intros Hs. destruct ev as [e| | | |message r| | |i]; simpl.
  - unfold onClick. destruct (status s); try done.
    + by apply wellFormed_handleStartSession.
    + by apply wellFormed_handleStopSession.
    + by apply wellFormed_handleStartSession.
  - by apply (wellFormed_same s).
  - destruct Hs as (Hse & Hac & Hso & Hno).
    split; [|split; [|split]]; simpl; try done.
    intros i [= <-]. rewrite length_app. simpl. lia.
  - by apply (wellFormed_same s).
  - by apply wellFormed_onmessage.
  - by apply (wellFormed_same s).
  - by apply (wellFormed_same s).
  - destruct Hs as (Hse & Hac & Hso & Hno).
    split; [|split; [|split]]; simpl; try done.
    + intros j Hj. rewrite length_alter. by apply Hso.
    + rewrite Forall_lookup in Hno |- *. intros j n.
      destruct (decide (i = j)) as [->|Hne].
      * rewrite list_lookup_alter_eq.
        destruct (nodes (browser s) !! j) as [n0|] eqn:E; simpl; [|done].
        intros [= <-]. apply node_end_not_created. by apply (Hno j).
      * rewrite list_lookup_alter_ne by done. apply Hno.
Qed.

Lemma wellFormed_run (s : App) (evs : list Event) :
  wellFormed s -> wellFormed (run s evs).
Proof.
  revert s. induction evs as [|ev evs IH]; intros s Hs; [done|].
  apply IH. by apply wellFormed_step.
Qed.

(** Every state the component can reach from its initial state, whatever
    the events: the session handle and the two context handles point at
    objects that exist (the contexts being the pair made by one start), every
    source of the active set is a node of the store, and every node has been
    started -- so [stop()] in [stopAudio] never throws and its [catch] is
    never taken. *)
Theorem reachable_wellFormed (evs : list Event) :
  let s := run initial evs in
  wellFormed s
  /\ forall i, i ∈ sourcesRef s ->
       exists n, nodes (browser s) !! i = Some n
                 /\ node_stop n = Some (try_stop n)
                 /\ nodes (browser (stopAudio s)) !! i = Some (try_stop n)
                 /\ sn_state (try_stop n) <> Started.
Proof.
  intros s. pose proof (wellFormed_run initial evs wellFormed_initial) as Hwf.
  fold s in Hwf. split; [exact Hwf|].
  destruct Hwf as (_ & _ & Hso & Hno). intros i Hi.
  destruct (lookup_lt_is_Some_2 _ _ (Hso i Hi)) as [n Hn].
  exists n. split; [exact Hn|].
  rewrite Forall_lookup in Hno. specialize (Hno i n Hn).
  split; [by apply node_stop_started|]. split.
  - simpl. by rewrite stop_all_lookup, decide_True, Hn.
  - apply try_stop_not_started.
Qed.

End Reachable.

(** ** What is kept, and what only the button does *)

Section Kept.
Context `{AudioUtils}.

(** A message changes no browser object but the source nodes. *)
Lemma onmessage_browser (message : LiveServerMessage) (r : Readings) (s : App) :
  let s' := onmessage message r s in
  sessions (browser s') = sessions (browser s)
  /\ contexts (browser s') = contexts (browser s)
  /\ mediaStreams (browser s') = mediaStreams (browser s)
  /\ alerts (browser s') = alerts (browser s).
Proof.
  cbv zeta. rewrite onmessage_cases. cbv zeta.
  destruct (onmessage_textOnly_frame message r s) as (tb & ms & ->).
  destruct (carriesAudio _ && _).
  - destruct (chunkOf message) as [b|]; [|done].
    by destruct (flag interrupted (serverContent message)).
  - by destruct (flag interrupted (serverContent message)).
Qed.

Lemma step_mediaStreams (s : App) (ev : Event) :
  (mediaStreams (browser s) <= mediaStreams (browser (step s ev)))%nat.
Proof.
  destruct ev as [e| | | |message r| | |i]; simpl; try done.
  - unfold onClick. destruct (status s); try done.
    + destruct s as [st ms se ac so ne tb br], e as [[] []];
        unfold handleStartSession; simpl; lia.
    + by destruct (handleStopSession_fields s) as (_&_&_&_&_&_&_&_&_&_& ->).
    + destruct s as [st ms se ac so ne tb br], e as [[] []];
        unfold handleStartSession; simpl; lia.
  - by destruct (onmessage_browser message r s) as (_ & _ & -> & _).
Qed.

Lemma step_closes_nothing (s : App) (ev : Event) :
  isClick ev = false ->
  (exists new, sessions (browser (step s ev)) = sessions (browser s) ++ new)
  /\ contexts (browser (step s ev)) = contexts (browser s).
Proof.
  intros Hev. destruct ev as [e| | | |message r| | |i]; simpl; try done;
    try (split; [exists []; by rewrite app_nil_r | done]).
  - split; [by eexists | done].
  - destruct (onmessage_browser message r s) as (-> & -> & _).
    split; [exists []; by rewrite app_nil_r | done].
Qed.

(** Nothing but the button releases anything. Under any events the number
    of microphone streams held never goes down (no callback stops one); and
    under events without a click -- stream errors and closes, rejections,
    messages, ends of playback -- no existing session and no audio context is
    closed or otherwise changed. *)
Theorem nothing_released_without_the_button (s : App) (evs : list Event) :
  (mediaStreams (browser s) <= mediaStreams (browser (run s evs)))%nat
  /\ (Forall (fun ev => isClick ev = false) evs ->
      (exists new, sessions (browser (run s evs)) = sessions (browser s) ++ new)
      /\ contexts (browser (run s evs)) = contexts (browser s)).
Proof.
  split.
  - revert s. induction evs as [|ev evs IH]; intros s; [done|].
    change (run s (ev :: evs)) with (run (step s ev) evs).
    etrans; [apply (step_mediaStreams s ev) | apply IH].
  - intros Hevs. revert s. induction Hevs as [|ev evs Hev _ IH]; intros s.
    + split; [exists []; by rewrite app_nil_r | done].
    + change (run s (ev :: evs)) with (run (step s ev) evs).
      destruct (IH (step s ev)) as [[new2 ->] ->].
      destruct (step_closes_nothing s ev Hev) as [[new1 ->] ->].
      split; [|done]. exists (new1 ++ new2). by rewrite app_assoc.
Qed.

Lemma step_keeps_text (s : App) (ev : Event) :
  isMessage ev = false ->
  messages (step s ev) = messages s
  /\ transcriptionBufferRef (step s ev) = transcriptionBufferRef s.
Proof.
  intros Hev. destruct ev as [e| | | |message r| | |i]; simpl; try done.
  unfold onClick. destruct (status s); try done.
  - by destruct s as [st ms se ac so ne tb br], e as [[] []].
  - by destruct (handleStopSession_fields s) as (_ & _ & _ & -> & -> & _).
  - by destruct s as [st ms se ac so ne tb br], e as [[] []].
Qed.

(** The log and the accumulators belong to no session. Events other than
    messages -- stopping, starting again, errors, closes -- leave both exactly
    as they are: the log lives on across sessions, and so does a turn that was
    cut short, whose fragments will open the first turn of the next session. *)
Theorem text_survives_sessions (s : App) (evs : list Event) :
  Forall (fun ev => isMessage ev = false) evs ->
  messages (run s evs) = messages s
  /\ transcriptionBufferRef (run s evs) = transcriptionBufferRef s.
Proof.
  intros Hevs. revert s. induction Hevs as [|ev evs Hev _ IH]; intros s; [done|].
  change (run s (ev :: evs)) with (run (step s ev) evs).
  destruct (IH (step s ev)) as [-> ->]. by apply step_keeps_text.
Qed.

(** [handleStartSession] line by line, the two parts put together. *)
Lemma handleStartSession_cases (e : StartEnv) (s : App) :
  handleStartSession e s
  = let s := set_status CONNECTING s in
    if negb (apiKey e) then handleStartSession_catch s
    else
      let inputCtx := length (contexts (browser s)) in
      let outputCtx := S inputCtx in
      let s := set_browser (set_contexts (contexts (browser s) ++ [0; 0]%nat) (browser s)) s in
      let s := set_audioContextsRef (Some (inputCtx, outputCtx)) s in
      if negb (microphone e) then handleStartSession_catch s
      else set_browser (set_mediaStreams (S (mediaStreams (browser s))) (browser s)) s.
Proof.
  unfold handleStartSession, handleStartSession_sync, handleStartSession_microphone.
  by destruct (apiKey e).
Qed.

(** A press whose microphone answers before anything else is delivered is
    the click of [step]. *)
Lemma press_and_answer (e : StartEnv) (s : App) :
  occurs (s, 0%nat) [Press (apiKey e); MicrophoneAnswer (microphone e)]
  = (step s (Click e), 0%nat).
Proof.
  unfold occurs. cbn [foldl occur step]. unfold onClick, handleStartSession.
  destruct (status s); try done;
    by destruct (handleStartSession_sync (apiKey e) s) as [s1 [|]].
Qed.

(** The session state machine, read off the callbacks, with the wait for
    the microphone as a state of its own: how each status can be entered.
    [ACTIVE] only by the stream opening. [CONNECTING] only by a press outside
    [ACTIVE] that finds the key -- before the microphone has answered, and
    whatever it will answer. [ERROR] only by a stream error, a rejected
    connection, a press under [IDLE] that finds no key, or the refusal of the
    microphone reaching a start that waits for it. [IDLE] only by the stream
    closing or a press while [ACTIVE]. A message and the grant of the
    microphone never change the status. And the other way round: a press under
    [IDLE] or [ERROR] that finds the key gives [CONNECTING] and one more start
    waiting, and a refusal that reaches a waiting start gives [ERROR]. *)
Theorem status_entered_by (st : App * nat) (o : Occurrence) :
  let s := st.1 in
  let s' := (occur st o).1 in
  (status s' = ACTIVE -> status s = ACTIVE \/ o = Callback StreamOpen)
  /\ (status s' = CONNECTING ->
      status s = CONNECTING \/ (o = Press true /\ status s <> ACTIVE))
  /\ (status s' = ERROR ->
      status s = ERROR \/ o = Callback StreamError \/ o = Callback SessionRejected
      \/ (o = Press false /\ status s = IDLE)
      \/ (o = MicrophoneAnswer false /\ (0 < st.2)%nat))
  /\ (status s' = IDLE ->
      status s = IDLE \/ o = Callback StreamClose
      \/ exists hasKey, o = Press hasKey /\ status s = ACTIVE)
  /\ (forall message r, o = Callback (StreamMessage message r) -> status s' = status s)
  /\ (o = MicrophoneAnswer true -> status s' = status s)
  /\ (o = Press true -> status s = IDLE \/ status s = ERROR ->
      status s' = CONNECTING /\ (occur st o).2 = S st.2)
  /\ (o = MicrophoneAnswer false -> (0 < st.2)%nat -> status s' = ERROR).
Proof.
  destruct st as [s waiting]. cbv zeta.
  pose proof (handleStopSession_fields s) as (Hstop & _).
  destruct o as [hasKey|granted|ev]; unfold occur.
  - destruct (status s) eqn:Hst.
    + destruct hasKey; simpl; rewrite ?Hst;
        repeat split; intros; try discriminate; naive_solver.
    + cbn [fst snd]. rewrite Hst.
      repeat split; intros; try discriminate; naive_solver.
    + cbn [fst snd]. rewrite Hstop, Hst.
      repeat split; intros; try discriminate; naive_solver.
    + destruct hasKey; simpl; rewrite ?Hst;
        repeat split; intros; try discriminate; naive_solver.
  - destruct waiting as [|n]; cbn [fst snd].
    + repeat split; intros; try discriminate; try lia; naive_solver.
    + destruct granted; cbn [handleStartSession_microphone negb];
        repeat split; intros; try discriminate; try lia; try naive_solver.
      right. right. right. right. split; [done | lia].
  - destruct ev as [e| | | |message r| | |i]; cbn [fst snd step];
      try (repeat split; intros; try discriminate; naive_solver).
    destruct (onmessage_fields message r s) as (-> & _).
    repeat split; intros; try discriminate; naive_solver.
Qed.

End Kept.


(** ** The view *)

Lemma statusText_inj (a b : SessionStatus) : statusText a = statusText b -> a = b.
Proof. by destruct a, b. Qed.

(** What the user sees and what the button does. A press on the rendered
    button does what [onClick] does; the icon tells which: the square when a
    press stops the session, the microphone when it starts one, the spinner
    when the button is disabled. An error shows in the word of the header
    only: apart from it, the view under [ERROR] is the view under [IDLE], and
    a press does the same. The bubbles are the messages of the log, in order,
    the user's on the right. *)
Theorem view_and_button (e : StartEnv) (s : App) :
  press (render s) e s = onClick e s
  /\ (v_icon (render s) = StopSquare <-> onClick e s = handleStopSession s /\ status s = ACTIVE)
  /\ (v_icon (render s) = Microphone <-> status s = IDLE \/ status s = ERROR)
  /\ (v_icon (render s) = Spinner <-> v_disabled (render s) = true)
  /\ (forall s1 s2, status s1 = IDLE -> status s2 = ERROR -> messages s1 = messages s2 ->
        render s2
        = {| v_pulse := v_pulse (render s1); v_status := "ERROR";
             v_bubbles := v_bubbles (render s1); v_rings := v_rings (render s1);
             v_onClick := v_onClick (render s1); v_disabled := v_disabled (render s1);
             v_rose := v_rose (render s1); v_icon := v_icon (render s1);
             v_caption := v_caption (render s1) |})
  /\ (forall a b, statusText a = statusText b -> a = b)
  /\ match v_bubbles (render s) with
     | None => messages s = []
     | Some bs =>
         messages s <> []
         /\ bb_text <$> bs = text <$> messages s
         /\ bb_key <$> bs = id <$> messages s
         /\ bb_right <$> bs = (fun m => bool_decide (role m = user)) <$> messages s
     end.
Proof.
  split; [|split; [|split; [|split; [|split; [|split]]]]].
  - unfold press, render, onClick. by destruct (status s).
  - unfold render, onClick. destruct (status s); simpl; split;
      try done; try (by intros [_ ?]).
  - unfold render. destruct (status s); simpl; split; try done; auto;
      intros [?|?]; discriminate.
  - unfold render. by destruct (status s).
  - intros s1 s2 H1 H2 Hm. unfold render. by rewrite H1, H2, Hm.
  - apply statusText_inj.
  - unfold render. simpl. destruct (messages s) as [|m ms]; simpl.
    + done.
    + split; [done|]. rewrite <- !list_fmap_compose. done.
Qed.

(** ** More on overlapping runs *)

Section Races.
Context `{AudioUtils}.

Lemma onmessage_sync_chunk (message : LiveServerMessage) (r : Readings)
    (b : AudioBuffer) (s : App) :
  is_Some (audioContextsRef s) -> chunkOf message = Some b ->
  onmessage_sync message r s
  = (set_nextStartTimeRef (Qmax (nextStartTimeRef s) (currentTime r))
       (onmessage (textOnly message) r s),
     AwaitDecode (Some b) (flag interrupted (serverContent message))).
Proof.
  intros [c Hc] Hb.
  destruct (onmessage_textOnly_frame message r s) as (tb & ms & Ht).
  rewrite Ht. rewrite onmessage_textOnly in Ht. cbv zeta in Ht.
  unfold onmessage_sync. cbv zeta. rewrite Ht. simpl. rewrite Hc.
  unfold chunkOf in Hb.
  destruct (audioDataOf (serverContent message)) as [d|]; simpl in *; [|done].
  destruct (truthy d); [|done].
  destruct (decode d) as [bytes|]; simpl in *; [|done].
  by rewrite Hb.
Qed.

Lemma onmessage_sync_silent (message : LiveServerMessage) (r : Readings) (s : App) :
  carriesAudio (StreamMessage message r) = false ->
  onmessage_sync message r s
  = (if flag interrupted (serverContent message)
     then stopAudio (onmessage (textOnly message) r s)
     else onmessage (textOnly message) r s, Completed).
Proof.
  intros Hca.
  destruct (onmessage_textOnly_frame message r s) as (tb & ms & Ht).
  rewrite Ht. rewrite onmessage_textOnly in Ht. cbv zeta in Ht.
  unfold onmessage_sync. cbv zeta. rewrite Ht. simpl.
  unfold carriesAudio in Hca.
  destruct (audioDataOf (serverContent message)) as [d|]; [|done].
  rewrite Hca. by destruct (audioContextsRef s).
Qed.

(** An interruption between the arrival of a chunk and the end of its
    decoding misses it. If the run for a chunk is suspended at its [await]
    when a message with the interruption flag (and no payload of its own) is
    handled, then the run goes on afterwards as if nothing had happened: the
    chunk is started, at the cursor the interruption has just reset to zero,
    and is the one member of the active set. Handled one after the other, the
    same two messages leave the chunk stopped and the active set empty. *)
Theorem interruption_misses_pending_chunk (message message' : LiveServerMessage)
    (r r' : Readings) (b : AudioBuffer) (s : App) :
  is_Some (audioContextsRef s) ->
  chunkOf message = Some b ->
  flag interrupted (serverContent message) = false ->
  flag interrupted (serverContent message') = true ->
  carriesAudio (StreamMessage message' r') = false ->
  let i := length (nodes (browser s)) in
  let overlapped := acts (s, []) [Arrive message r; Arrive message' r'; Settle 0] in
  let inOrder := run s [StreamMessage message r; StreamMessage message' r'] in
  (sourcesRef overlapped.1 = {[ i ]}
   /\ nodes (browser overlapped.1) !! i = Some (startedNode (0, b))
   /\ nextStartTimeRef overlapped.1 = 0 + duration b
   /\ overlapped.2 = [])
  /\ (sourcesRef inOrder = ∅
      /\ (sn_state <$> nodes (browser inOrder) !! i) = Some Stopped
      /\ nextStartTimeRef inOrder = 0).
Proof.
  intros Hctx Hb Hcalm Hintr Hsilent i overlapped inOrder. split.
  - subst overlapped. unfold acts. simpl.
    rewrite (onmessage_sync_chunk message r b s Hctx Hb), Hcalm. simpl.
    rewrite (onmessage_sync_silent message' r' _ Hsilent), Hintr. simpl.
    destruct (onmessage_textOnly_frame message r s) as (tb & ms & ->).
    match goal with
    | |- context [onmessage (textOnly message') r' ?s1] =>
        destruct (onmessage_textOnly_frame message' r' s1) as (tb' & ms' & ->)
    end.
    simpl. rewrite stop_all_length. fold i.
    split; [by rewrite (right_id_L ∅ (∪))|].
    split; [|done].
    rewrite lookup_app_r by (rewrite stop_all_length; lia).
    rewrite stop_all_length. fold i. by rewrite Nat.sub_diag.
  - subst inOrder. unfold run. simpl.
    assert (He : enqueues message b) by done.
    destruct (onmessage_enqueue_fields message r b s Hctx He) as (Hc & Hn & Ht & Hs).
    cbv zeta in Hc, Hn, Ht, Hs.
    rewrite (onmessage_cases message'). cbv zeta. rewrite Hsilent, Hintr. simpl.
    match goal with
    | |- context [onmessage (textOnly message') r' ?s1] =>
        destruct (onmessage_textOnly_frame message' r' s1) as (tb' & ms' & ->)
    end.
    simpl. split; [done|]. split; [|done].
    rewrite stop_all_lookup, Hs, decide_True by set_solver.
    rewrite Hn. fold i. rewrite lookup_app_r by lia. by rewrite Nat.sub_diag.
Qed.

Lemma onmessage_sync_calm_set (message : LiveServerMessage) (r : Readings) (s : App) :
  flag interrupted (serverContent message) = false ->
  sourcesRef (onmessage_sync message r s).1 = sourcesRef s.
Proof.
  intros Hi.
  destruct (onmessage_textOnly_frame message r s) as (tb & ms & Ht).
  rewrite onmessage_textOnly in Ht. cbv zeta in Ht.
  unfold onmessage_sync. cbv zeta. rewrite Ht, Hi. simpl.
  destruct (audioDataOf (serverContent message)) as [d|];
    [destruct (audioContextsRef s); [destruct (truthy d); [destruct (decode d)|]|]|];
    reflexivity.
Qed.

(** Without an interruption nothing goes backwards, also when runs
    overlap: whatever the order of arrivals and continuations, the cursor
    never decreases, the active set loses no source and the store no node. *)
Theorem calm_runs_only_advance (s : App) (l : list Action) :
  Forall calm l ->
  let s' := (acts (s, []) l).1 in
  nextStartTimeRef s <= nextStartTimeRef s'
  /\ sourcesRef s ⊆ sourcesRef s'
  /\ (length (nodes (browser s)) <= length (nodes (browser s')))%nat.
Proof.
  intros Hl.
  assert (Hinv : forall st,
             (nextStartTimeRef s <= nextStartTimeRef st.1
              /\ sourcesRef s ⊆ sourcesRef st.1
              /\ (length (nodes (browser s)) <= length (nodes (browser st.1)))%nat)
             /\ Forall (fun p => pd_intr p = false) st.2 ->
             nextStartTimeRef s <= nextStartTimeRef (acts st l).1
             /\ sourcesRef s ⊆ sourcesRef (acts st l).1
             /\ (length (nodes (browser s)) <= length (nodes (browser (acts st l).1)))%nat).
  { induction Hl as [|a l Ha _ IH]; intros [s1 waiting] [(Hc & Hs & Hn) Hw]; simpl in *.
    - done.
    - apply IH. destruct a as [message r|k]; simpl in *.
      + destruct (onmessage_sync_calm message r s1 Ha) as (Hn' & Hc' & Hk).
        pose proof (onmessage_sync_calm_set message r s1 Ha) as Hs'.
        destruct (onmessage_sync message r s1) as [s2 [| |b i]]; simpl in *;
          (split; [split; [lra | split; [by rewrite Hs' | by rewrite Hn']]|]);
          try exact Hw.
        apply Forall_app. split; [exact Hw|]. by constructor.
      + destruct (waiting !! k) as [p|] eqn:Ek; simpl; [|done].
        pose proof (Forall_lookup_1 _ _ _ _ Hw Ek) as Hp. simpl in Hp.
        rewrite Hp. split; [|by apply Forall_delete].
        destruct (pd_buffer p) as [b|]; simpl; [|done].
        pose proof (duration_nonneg b). rewrite length_app. simpl.
        split; [lra|]. split; [set_solver | lia]. }
  apply (Hinv (s, [])). split; [|constructor].
  split; [apply Qle_refl|]. done.
Qed.

End Races.

(** ** Late chunks and dropped chunks *)

Section Late.
Context `{AudioUtils}.

(** A chunk that comes late. When the output clock has passed the cursor
    -- after a pause in the stream, or after an interruption has reset the
    cursor to zero -- the chunk starts at the clock: what was scheduled before
    does not delay it, and the cursor goes on from the clock. *)
Theorem late_chunk_starts_at_the_clock (message : LiveServerMessage) (r : Readings)
    (b : AudioBuffer) (s : App) :
  is_Some (audioContextsRef s) -> enqueues message b ->
  nextStartTimeRef s < currentTime r ->
  let s' := onmessage message r s in
  nodes (browser s') = nodes (browser s) ++ [startedNode (currentTime r, b)]
  /\ nextStartTimeRef s' = currentTime r + duration b
  /\ (0 < currentTime r ->
      nodes (browser (onmessage message r (stopAudio s))) !! length (nodes (browser s))
      = Some (startedNode (currentTime r, b))).
Proof.
  intros Hctx He Hlate s'. subst s'.
  destruct (onmessage_enqueue_fields message r b s Hctx He) as (_ & Hn & Ht & _).
  cbv zeta in Hn, Ht. rewrite (Qmax_clock _ _ Hlate) in Hn, Ht.
  split; [exact Hn|]. split; [exact Ht|].
  intros Hpos.
  destruct (onmessage_enqueue_fields message r b (stopAudio s) Hctx He)
    as (_ & Hn' & _).
  cbv zeta in Hn'. rewrite Hn'. simpl. rewrite (Qmax_clock 0 _ Hpos).
  rewrite lookup_app_r by (rewrite stop_all_length; lia).
  by rewrite stop_all_length, Nat.sub_diag.
Qed.

Lemma onmessage_withoutPayload (message : LiveServerMessage) (r : Readings) (s : App) :
  flag interrupted (serverContent message) = false ->
  onmessage (withoutPayload message) r s = onmessage (textOnly message) r s.
Proof.
  destruct message as [[[i o tc mt it]|]]; simpl; [|done].
  by intros ->.
Qed.

(** A dropped chunk leaves no trace in the schedule, unless it came with an
    interruption. After a message whose payload did not decode and which was
    not flagged as an interruption, the next chunk is scheduled at the time
    (as a rational number) it would have had if the failed message had
    carried no payload, provided the output clock has not run backwards
    between the two; the active set, the log and the accumulators are the
    same outright. *)
Theorem dropped_chunk_leaves_schedule (bad message : LiveServerMessage)
    (r1 r2 : Readings) (b : AudioBuffer) (s : App) :
  is_Some (audioContextsRef s) -> undecodable bad ->
  flag interrupted (serverContent bad) = false ->
  enqueues message b ->
  currentTime r1 <= currentTime r2 ->
  let after := run s [StreamMessage bad r1; StreamMessage message r2] in
  let without := run s [StreamMessage (withoutPayload bad) r1; StreamMessage message r2] in
  exists w w',
    nodes (browser after) = nodes (browser s) ++ [startedNode (w, b)]
    /\ nodes (browser without) = nodes (browser s) ++ [startedNode (w', b)]
    /\ w == w'
    /\ nextStartTimeRef after == nextStartTimeRef without
    /\ sourcesRef after = sourcesRef without
    /\ messages after = messages without
    /\ transcriptionBufferRef after = transcriptionBufferRef without.
Proof.
  intros Hctx Hbad Hcalm He Hclock after without. subst after without.
  unfold run. simpl. rewrite (onmessage_withoutPayload bad r1 s Hcalm).
  destruct (undecodable_carriesAudio bad r1 Hbad) as [Hc Hn].
  rewrite (onmessage_cases bad). cbv zeta.
  rewrite Hc, Hn, bool_decide_eq_true_2 by done. simpl.
  destruct (onmessage_textOnly_frame bad r1 s) as (tb & ms & ->).
  set (t := set_transcriptionBufferRef tb (set_messages ms s)).
  set (t1 := set_nextStartTimeRef (Qmax (nextStartTimeRef s) (currentTime r1)) t).
  assert (Hctx1 : is_Some (audioContextsRef t1)) by done.
  assert (Hctx0 : is_Some (audioContextsRef t)) by done.
  rewrite (onmessage_enqueue message r2 b t1 Hctx1 He).
  rewrite (onmessage_enqueue message r2 b t Hctx0 He).
  destruct (onmessage_textOnly_frame message r2 t1) as (tb1 & ms1 & E1).
  destruct (onmessage_textOnly_frame message r2 t) as (tb0 & ms0 & E0).
  assert (Hsame : messages (onmessage (textOnly message) r2 t1)
                  = messages (onmessage (textOnly message) r2 t)
                  /\ transcriptionBufferRef (onmessage (textOnly message) r2 t1)
                     = transcriptionBufferRef (onmessage (textOnly message) r2 t)).
  { rewrite !onmessage_textOnly. cbv zeta. rewrite !onmessage_fragments_eq.
    destruct (flag turnComplete (serverContent message)); [|done].
    unfold onmessage_turnComplete. simpl.
    by destruct (truthy _ || truthy _). }
  destruct Hsame as [Hm Htb]. rewrite E1 in Hm, Htb |- *. rewrite E0 in Hm, Htb |- *.
  simpl in Hm, Htb. subst ms1 tb1.
  exists (Qmax (Qmax (nextStartTimeRef s) (currentTime r1)) (currentTime r2)),
         (Qmax (nextStartTimeRef s) (currentTime r2)).
  assert (Hw : Qmax (Qmax (nextStartTimeRef s) (currentTime r1)) (currentTime r2)
               == Qmax (nextStartTimeRef s) (currentTime r2)).
  { rewrite <- Q.max_assoc. by rewrite (Q.max_r _ _ Hclock). }
  simpl. split; [done|]. split; [done|]. split; [exact Hw|].
  split; [by rewrite Hw | done].
Qed.

End Late.

(** ** The stop button on a reachable state *)

Section Stopping.
Context `{AudioUtils}.

(** What a stop releases. In every state the component can reach, a click
    while the status is [ACTIVE] gives the session behind the handle one more
    [close()], and each of the two audio contexts behind the handles one
    more, leaves no source of the active set playing, empties the set, resets
    the cursor and sets the status to [IDLE]. The microphone streams are
    all still held afterwards. *)
Theorem stop_releases_what_is_held (evs : list Event) (e : StartEnv) :
  let s := run initial evs in
  status s = ACTIVE ->
  let s' := step s (Click e) in
  status s' = IDLE /\ sourcesRef s' = ∅ /\ nextStartTimeRef s' = 0
  /\ (forall i, sessionRef s = Some i ->
        closeCalls (sessions (browser s')) i = S (closeCalls (sessions (browser s)) i))
  /\ (forall i o, audioContextsRef s = Some (i, o) ->
        closeCalls (contexts (browser s')) i = S (closeCalls (contexts (browser s)) i)
        /\ closeCalls (contexts (browser s')) o = S (closeCalls (contexts (browser s)) o))
  /\ (forall i, i ∈ sourcesRef s ->
        exists n, nodes (browser s') !! i = Some n /\ sn_state n <> Started)
  /\ mediaStreams (browser s') = mediaStreams (browser s).
Proof.
  intros s Hact s'. subst s'. simpl. unfold onClick. rewrite Hact.
  pose proof (wellFormed_run initial evs wellFormed_initial) as (Hse & Hac & Hso & Hno).
  fold s in Hse, Hac, Hso, Hno.
  destruct (handleStopSession_fields s)
    as (Hst' & Hso' & Hne' & _ & _ & _ & _ & Hno' & Hss' & Hcs' & Hmd').
  split; [exact Hst'|]. split; [exact Hso'|]. split; [exact Hne'|].
  split; [|split; [|split]].
  - intros i Hi. rewrite Hss', Hi, closeCalls_close.
    rewrite decide_True; [done|]. split; [done|]. by apply Hse.
  - intros i o Hio. destruct (Hac i o Hio) as [-> Hlt].
    rewrite Hcs', Hio, !closeCalls_close, !length_close.
    rewrite (decide_True (P := S i = S i /\ _)) by done.
    rewrite (decide_True (P := i = i /\ _)) by (split; [done | lia]).
    rewrite (decide_False (P := S i = i /\ _)) by (intros [? _]; lia).
    rewrite (decide_False (P := i = S i /\ _)) by (intros [? _]; lia).
    done.
  - intros i Hi. destruct (lookup_lt_is_Some_2 _ _ (Hso i Hi)) as [n Hn].
    exists (try_stop n). rewrite Hno', stop_all_lookup, decide_True, Hn by done.
    split; [done | apply try_stop_not_started].
  - exact Hmd'.
Qed.

End Stopping.

(** ** What keeps playing *)

Section PlaysOn.
Context `{AudioUtils}.

Lemma playsOn_refl (n : SourceNode) : playsOn n n.
Proof. by repeat split. Qed.

Lemma playsOn_trans (a b c : SourceNode) : playsOn a b -> playsOn b c -> playsOn a c.
Proof.
  intros (Hb & Hw & Hs) (Hb' & Hw' & Hs').
  split; [congruence|]. split; [congruence | auto].
Qed.

Lemma step_quiet (s : App) (ev : Event) :
  quiet ev ->
  sourcesRef s ⊆ sourcesRef (step s ev)
  /\ forall i n, nodes (browser s) !! i = Some n ->
       exists n', nodes (browser (step s ev)) !! i = Some n' /\ playsOn n n'.
Proof.
  intros Hev.
  assert (Hsame : forall s' : App,
             sourcesRef s' = sourcesRef s -> nodes (browser s') = nodes (browser s) ->
             sourcesRef s ⊆ sourcesRef s'
             /\ forall i n, nodes (browser s) !! i = Some n ->
                  exists n', nodes (browser s') !! i = Some n' /\ playsOn n n').
  { intros s' -> ->. split; [done|]. intros i n Hn. exists n.
    split; [done | apply playsOn_refl]. }
  destruct ev as [e| | | |message r| | |j]; simpl in *; try done;
    try (by apply Hsame).
  - rewrite onmessage_cases. cbv zeta. rewrite Hev.
    destruct (onmessage_textOnly_frame message r s) as (tb & ms & ->).
    destruct (carriesAudio _ && _); [|by apply Hsame].
    destruct (chunkOf message) as [b|]; [|by apply Hsame].
    simpl. split; [set_solver|]. intros i n Hn. exists n.
    split; [|apply playsOn_refl]. rewrite lookup_app_l; [done|].
    by eapply lookup_lt_Some.
  - split; [done|]. intros i n Hn.
    destruct (decide (j = i)) as [->|Hne].
    + exists (node_end n). rewrite list_lookup_alter_eq, Hn. split; [done|].
      by destruct n as [b w []].
    + exists n. rewrite list_lookup_alter_ne by done.
      split; [done | apply playsOn_refl].
Qed.

(** Audio plays on. Under events that are neither a click nor a message
    with the interruption flag -- a stream error or close among them -- no
    source leaves the active set and no node is stopped: every node is still
    in the store with its buffer and start time, stopped only if it was
    before. *)
Theorem audio_plays_on (s : App) (evs : list Event) :
  Forall quiet evs ->
  sourcesRef s ⊆ sourcesRef (run s evs)
  /\ forall i n, nodes (browser s) !! i = Some n ->
       exists n', nodes (browser (run s evs)) !! i = Some n' /\ playsOn n n'.
Proof.
  intros Hevs. revert s. induction Hevs as [|ev evs Hev _ IH]; intros s.
  - split; [done|]. intros i n Hn. exists n. split; [done | apply playsOn_refl].
  - change (run s (ev :: evs)) with (run (step s ev) evs).
    destruct (IH (step s ev)) as [Hs2 Hn2].
    destruct (step_quiet s ev Hev) as [Hs1 Hn1].
    split; [by etrans|]. intros i n Hn.
    destruct (Hn1 i n Hn) as (n1 & Hn1' & Hp1).
    destruct (Hn2 i n1 Hn1') as (n2 & Hn2' & Hp2).
    exists n2. split; [done | by eapply playsOn_trans].
Qed.

End PlaysOn.

(** ** Scenarios *)

Import Sample.

Ltac in_set := refine (bool_decide_unpack _ _); vm_compute; exact I.

(** Two chunks on the sample session: both hypotheses hold, and the schedule
    is the one computed by the specification's rule. *)
Lemma enqueue_back_to_back_witness :
  startedNode <$> (spec_enqueue 0 (enqueueChunks twoChunks)).1
  = [ {| sn_buffer := fourFrames; sn_when := 0; sn_state := Started |};
      {| sn_buffer := fourFrames; sn_when := 0 + (4 # 24000); sn_state := Started |} ]
  /\ nodes (browser playing) = startedNode <$> (spec_enqueue 0 (enqueueChunks twoChunks)).1
  /\ nextStartTimeRef playing = (spec_enqueue 0 (enqueueChunks twoChunks)).2
  /\ sourcesRef playing = list_to_set (seq 0 2) ∪ ∅.
Proof.
  assert (Hctx : is_Some (audioContextsRef active)) by (by eexists).
  assert (Hins : Forall (fun x => enqueues x.1.1 x.2) twoChunks)
    by (repeat constructor).
  destruct (enqueue_back_to_back twoChunks active Hctx Hins) as (Hn & Ht & Hs & _).
  split; [reflexivity|]. split; [exact Hn|]. split; [exact Ht | exact Hs].
Defined.

(** [stopAudio] on the session with two chunks scheduled, and on a session
    with nothing scheduled. *)
Lemma stopAudio_interrupt_witness :
  let n := {| sn_buffer := fourFrames; sn_when := 0; sn_state := Started |} in
  (nodes (browser (stopAudio playing)) !! 0%nat = Some (try_stop n)
   /\ sn_state (try_stop n) <> Started
   /\ (sn_state n = Started -> sn_state (try_stop n) = Stopped))
  /\ nodes (browser (stopAudio playing)) !! 7%nat = nodes (browser playing) !! 7%nat
  /\ stopAudio (stopAudio initial) = set_nextStartTimeRef 0 (stopAudio initial).
Proof.
  intros n.
  destruct (stopAudio_interrupt playing) as (Hin & Hout & _).
  destruct (stopAudio_interrupt (stopAudio initial)) as (_ & _ & _ & _ & _ & Hempty).
  split; [|split].
  - apply (Hin 0%nat n); [in_set | reflexivity].
  - apply (Hout 7%nat). intros Hin7.
    apply (bool_decide_pack _) in Hin7. vm_compute in Hin7. exact Hin7.
  - apply Hempty. reflexivity.
Defined.

(** The aggregator scenario of the specification: "Hi" from the user and
    "Hello" from the model, then a turn boundary, then a second boundary
    with nothing new. *)
Example finalizeTurn_scenario :
  let s1 := run active [StreamMessage hi (clock 0 1000);
                        StreamMessage hello (clock 0 1001);
                        StreamMessage turnCompleteOnly (clock 0 1002)] in
  let s2 := run s1 [StreamMessage turnCompleteOnly (clock 0 1003)] in
  said <$> messages s1 = [(user, lit "Hi"); (model, lit "Hello")]
  /\ id <$> messages s1 = [lit "u-1002"; lit "m-1002"]
  /\ s2 = s1.
Proof. vm_compute. repeat split. Qed.

(** The scheduler scenario of the specification, in frames: chunk A at clock
    0 starts at 0; chunk B arrives before A has played out and starts at the
    end of A, not at its own arrival. *)
Example enqueue_scenario :
  sn_when <$> nodes (browser playing) = [0; 0 + (4 # 24000)]
  /\ nextStartTimeRef playing = 0 + (4 # 24000) + (4 # 24000).
Proof. vm_compute. repeat split. Qed.

(** A source whose playback has ended is still in the active set. *)
Lemma finished_source_stays_active :
  let s := run active [StreamMessage (audio "AAAAAAAA") (clock 0 1000); SourceEnded 0] in
  exists i n, i ∈ sourcesRef s /\ nodes (browser s) !! i = Some n /\ sn_state n = Ended.
Proof.
  intros s. exists 0%nat. eexists. split; [in_set|]. split; reflexivity.
Qed.

(** The two chunks of the playing session come to their end, the first one
    twice over, before and after a [stopAudio]. *)
Lemma completion_leaves_active_set_witness :
  let n := {| sn_buffer := fourFrames; sn_when := 0; sn_state := Started |} in
  sourcesRef (run playing (SourceEnded <$> [0; 1; 0]%nat)) = sourcesRef playing
  /\ sourcesRef (run (stopAudio playing) (SourceEnded <$> [0; 1; 0]%nat)) = ∅
  /\ (0%nat ∈ sourcesRef (step playing (SourceEnded 0))
      /\ nodes (browser (step playing (SourceEnded 0))) !! 0%nat = Some (node_end n)
      /\ sn_state (node_end n) = Ended).
Proof.
  intros n.
  destruct (completion_leaves_active_set playing [0; 1; 0]%nat)
    as (_ & Hsame & _ & Hempty & Hstays).
  split; [exact Hsame|]. split; [exact Hempty|].
  apply (Hstays 0%nat n); [in_set | reflexivity | reflexivity].
Defined.

(** C5. A stream error on a session with a source playing: the status is
    [ERROR] and nothing is released -- the session and both audio contexts
    have had no [close()], the microphone stream is still held, the source is
    still in the active set and still playing. A failed start is the same:
    the audio contexts made before the microphone was refused, and the
    microphone stream of a connection that was rejected, stay as they are.
    The stop button, from the same state, does release: session and contexts
    closed, active set empty, source stopped. *)
Theorem error_releases_nothing :
  let s := run active [StreamMessage (audio "AAAAAAAA") (clock 0 1000)] in
  let failed := run s [StreamError] in
  let refused := run initial [Click {| apiKey := true; microphone := false |}] in
  let rejected := run initial [Click granted; SessionRejected] in
  let released := run s [Click granted] in
  (status failed = ERROR
   /\ sessionRef failed = Some 0%nat
   /\ closeCalls (sessions (browser failed)) 0 = 0%nat
   /\ audioContextsRef failed = Some (0%nat, 1%nat)
   /\ closeCalls (contexts (browser failed)) 0 = 0%nat
   /\ closeCalls (contexts (browser failed)) 1 = 0%nat
   /\ mediaStreams (browser failed) = 1%nat
   /\ 0%nat ∈ sourcesRef failed
   /\ sn_state <$> nodes (browser failed) !! 0%nat = Some Started)
  /\ (status refused = ERROR
      /\ audioContextsRef refused = Some (0%nat, 1%nat)
      /\ contexts (browser refused) = [0; 0]%nat)
  /\ (status rejected = ERROR
      /\ mediaStreams (browser rejected) = 1%nat
      /\ contexts (browser rejected) = [0; 0]%nat)
  /\ (status released = IDLE
      /\ closeCalls (sessions (browser released)) 0 = 1%nat
      /\ contexts (browser released) = [1; 1]%nat
      /\ sourcesRef released = ∅
      /\ sn_state <$> nodes (browser released) !! 0%nat = Some Stopped).
Proof.
  intros s failed refused rejected released.
  split; [|split; [|split]].
  - repeat split.
  - repeat split.
  - repeat split.
  - repeat split.
Qed.

(** Two stops in a row close the session and the contexts twice. *)
Lemma stop_twice_closes_twice :
  let s1 := handleStopSession active in
  let s2 := handleStopSession s1 in
  status s1 = IDLE
  /\ closeCalls (sessions (browser s1)) 0 = 1%nat
  /\ closeCalls (sessions (browser s2)) 0 = 2%nat
  /\ contexts (browser s1) = [1; 1]%nat
  /\ contexts (browser s2) = [2; 2]%nat
  /\ s2 <> s1.
Proof.
  intros s1 s2. repeat split.
  intros Heq. apply (f_equal (fun s => contexts (browser s))) in Heq.
  vm_compute in Heq. discriminate.
Qed.

(** The stop handler on the active sample session, on the initial state, and
    the button on the stopped session. *)
Lemma handleStopSession_unguarded_witness :
  (closeCalls (sessions (browser (handleStopSession (handleStopSession active)))) 0
   = S (S (closeCalls (sessions (browser active)) 0))
   /\ closeCalls (contexts (browser (handleStopSession (handleStopSession active)))) 1
      = S (S (closeCalls (contexts (browser active)) 1)))
  /\ (sessions (browser (handleStopSession initial)) = sessions (browser initial)
      /\ contexts (browser (handleStopSession initial)) = contexts (browser initial))
  /\ sessions (browser (onClick granted stopped)) = sessions (browser stopped)
  /\ closeCalls (contexts (browser (onClick granted stopped))) 1
     = closeCalls (contexts (browser stopped)) 1.
Proof.
  destruct (handleStopSession_unguarded granted active) as (_ & Hs & Hc & _).
  destruct (handleStopSession_unguarded granted initial) as (_ & _ & _ & Hnone & _).
  destruct (handleStopSession_unguarded granted stopped) as (_ & _ & _ & _ & _ & Hclick).
  split; [split|split; [|]].
  - apply (Hs 0%nat); [reflexivity | vm_compute; lia].
  - apply (Hc 0%nat 1%nat); [reflexivity | discriminate | vm_compute; lia | vm_compute; lia].
  - apply Hnone; reflexivity.
  - destruct Hclick as [Hss Hcc]; [discriminate|].
    split; [exact Hss|]. apply Hcc. vm_compute; lia.
Defined.

(** A payload that does not decode: the cursor has moved, and the turn of
    the same message is in the log. *)
Lemma undecodable_payload_moves_cursor :
  let s' := onmessage hiTurnMalformed (clock 5 1000) active in
  decode (lit "AA!A") = None
  /\ nextStartTimeRef active = 0 /\ nextStartTimeRef s' = 5
  /\ messages active = [] /\ said <$> messages s' = [(user, lit "Hi")]
  /\ nextStartTimeRef s' <> nextStartTimeRef active
  /\ messages s' <> messages active.
Proof. intros s'. vm_compute. repeat split; discriminate. Qed.

(** The same message, read through the theorem. *)
Lemma undecodable_payload_dropped_witness :
  let s' := onmessage hiTurnMalformed (clock 5 1000) active in
  let t := onmessage (textOnly hiTurnMalformed) (clock 5 1000) active in
  s' = set_nextStartTimeRef (Qmax 0 5) t
  /\ sourcesRef s' = sourcesRef active
  /\ browser s' = browser active
  /\ status s' = ACTIVE.
Proof.
  intros s' t.
  assert (Hctx : is_Some (audioContextsRef active)) by (by eexists).
  assert (Hu : undecodable hiTurnMalformed).
  { exists (lit "AA!A"). repeat split. }
  destruct (undecodable_payload_dropped hiTurnMalformed (clock 5 1000) active Hctx Hu)
    as (Hs & Hso & Hbr & Hst & _).
  split; [exact Hs|]. split; [exact Hso|]. split; [exact Hbr | exact Hst].
Defined.

(** A message that arrives after the session was stopped is handled like
    any other: it fills the accumulators, the log, the active set, and moves
    the cursor. *)
Lemma message_while_idle_is_handled :
  let s' := onmessage hiTurnWithAudio (clock 2 1000) stopped in
  let s'' := onmessage hi (clock 2 1000) stopped in
  status stopped = IDLE
  /\ (messages stopped = [] /\ said <$> messages s' = [(user, lit "Hi")])
  /\ (transcriptionBufferRef stopped = emptyBuffer
      /\ transcriptionBufferRef s'' = {| tb_user := lit "Hi"; tb_model := [] |})
  /\ (sourcesRef stopped = ∅ /\ 0%nat ∈ sourcesRef s')
  /\ (nextStartTimeRef stopped = 0 /\ nextStartTimeRef s' = 2 + (4 # 24000)).
Proof. intros s' s''. repeat split; vm_compute; reflexivity. Qed.

(** C9. Two turns finalized within the same millisecond: the two messages
    appended to the log carry the same [id]. *)
Theorem same_millisecond_same_id :
  let s := run active [StreamMessage hiTurn (clock 0 1700000000000);
                       StreamMessage hiTurn (clock (1 # 2) 1700000000000)] in
  id <$> messages s = [lit "u-1700000000000"; lit "u-1700000000000"]
  /\ said <$> messages s = [(user, lit "Hi"); (user, lit "Hi")]
  /\ ~ NoDup (id <$> messages s).
Proof.
  intros s. split; [vm_compute; reflexivity|]. split; [vm_compute; reflexivity|].
  intros Hnd. apply NoDup_cons in Hnd as [Hnotin _].
  apply Hnotin. vm_compute. left.
Qed.

(** A turn, a chunk and a barge-in in one message; a barge-in alone; and a
    barge-in with a payload that does not decode. *)
Lemma onmessage_field_order_witness :
  let s' := onmessage bargeIn (clock (1 # 24000) 1002) playing in
  let lost := onmessage bargeInMalformed (clock 0 1004) playing in
  ((exists new, messages s' = messages playing ++ new
                /\ said <$> new = spec_finalizeTurn ([] ++ lit " Hi ") ([] ++ []))
   /\ transcriptionBufferRef s' = emptyBuffer)
  /\ (nodes (browser s') !! 2%nat
      = Some {| sn_buffer := fourFrames;
                sn_when := Qmax (nextStartTimeRef playing) (1 # 24000);
                sn_state := Stopped |}
      /\ length (nodes (browser s')) = 3%nat
      /\ sourcesRef s' = ∅ /\ nextStartTimeRef s' = 0)
  /\ onmessage interruption (clock 0 1003) playing
     = stopAudio (onmessage (textOnly interruption) (clock 0 1003) playing)
  /\ (lost = set_nextStartTimeRef (Qmax (nextStartTimeRef playing) 0)
               (onmessage (textOnly bargeInMalformed) (clock 0 1004) playing)
      /\ sourcesRef lost = sourcesRef playing
      /\ nodes (browser lost) = nodes (browser playing)).
Proof.
  intros s' lost.
  destruct (onmessage_field_order bargeIn
              {| inputTranscription := Some {| tr_text := lit " Hi " |};
                 outputTranscription := None; turnComplete := true;
                 modelTurn := audioPart "AAAAAAAA"; interrupted := true |}
              (clock (1 # 24000) 1002) playing eq_refl) as (Htext & Haudio & _).
  destruct (onmessage_field_order interruption
              {| inputTranscription := None; outputTranscription := None;
                 turnComplete := false; modelTurn := None; interrupted := true |}
              (clock 0 1003) playing eq_refl) as (_ & _ & Hintr & _).
  destruct (onmessage_field_order bargeInMalformed
              {| inputTranscription := None; outputTranscription := None;
                 turnComplete := false; modelTurn := audioPart "AA!A";
                 interrupted := true |}
              (clock 0 1004) playing eq_refl) as (_ & _ & _ & Hlost).
  split; [exact Htext|]. split; [|split].
  - apply (Haudio eq_refl fourFrames); [vm_compute; reflexivity | by eexists].
  - apply Hintr; [reflexivity | left; reflexivity].
  - apply Hlost; [|by eexists].
    exists (lit "AA!A"). repeat split.
Defined.

(** A barge-in whose payload does not decode: the interruption is lost. The
    two chunks of the playing session stay in the active set, started. *)
Lemma interruption_lost_with_undecodable_payload :
  let s' := onmessage bargeInMalformed (clock 0 1004) playing in
  flag interrupted (serverContent bargeInMalformed) = true
  /\ elements (sourcesRef s') = elements (sourcesRef playing)
  /\ elements (sourcesRef s') = [1; 0]%nat
  /\ sn_state <$> nodes (browser s') = [Started; Started]
  /\ nextStartTimeRef s' = nextStartTimeRef playing
  /\ nextStartTimeRef s' <> 0.
Proof. intros s'. vm_compute. repeat split; discriminate. Qed.

(** A chunk that arrives five seconds after a chunk of four frames: both are
    enqueues on the sample session, and the second starts at the clock, long
    after the first has ended. *)
Lemma late_chunk_leaves_a_gap :
  let s' := run active (enqueueEvents lateChunks) in
  is_Some (audioContextsRef active)
  /\ Forall (fun x => enqueues x.1.1 x.2) lateChunks
  /\ startedNode <$> (spec_enqueue 0 (enqueueChunks lateChunks)).1
     = [startedNode (0, fourFrames); startedNode (5, fourFrames)]
  /\ nodes (browser s') = [startedNode (0, fourFrames); startedNode (5, fourFrames)]
  /\ 0 + duration fourFrames < 5
  /\ ~ (5 == 0 + duration fourFrames).
Proof.
  intros s'. split; [by eexists|]. split; [repeat constructor|].
  split; [reflexivity|]. split; [vm_compute; reflexivity|].
  split; [vm_compute; reflexivity|].
  vm_compute. discriminate.
Qed.

(** An interruption that arrives while a chunk is still being decoded does
    not reach that chunk: the suspended run goes on after it, starts the
    source and adds it to the active set. *)
Example decode_completion_after_interrupt :
  let st := acts (active, [])
              [Arrive (audio "AAAAAAAA") (clock 0 1000);
               Arrive interruption (clock 0 1001);
               Settle 0] in
  elements (sourcesRef st.1) = [0%nat]
  /\ sn_state <$> nodes (browser st.1) !! 0%nat = Some Started
  /\ st.2 = [].
Proof. vm_compute. repeat split. Qed.

(** Two turns a millisecond apart have different identities. *)
Example ids_unique_scenario :
  NoDup (id <$> messages (run active [StreamMessage hiTurn (clock 0 1700000000000);
                                      StreamMessage hiTurn (clock 0 1700000000001)])).
Proof.
  apply (ids_unique_across_milliseconds _ [] active).
  - constructor.
  - constructor.
  - repeat constructor.
  - simpl. repeat split; repeat constructor. intros k k'. discriminate.
Defined.

(** ** Scenarios for the further properties *)

(** Two chunks whose decodings finish in the opposite order. *)
Lemma overlapping_runs_back_to_back_witness :
  exists new,
    nodes (browser (acts (active, [])
                      [Arrive (audio "AAAAAAAA") (clock 0 1000);
                       Arrive (audio "AAAA") (clock (1 # 24000) 1001);
                       Settle 1; Settle 0]).1)
    = nodes (browser active) ++ new
    /\ backToBack new.
Proof. apply (overlapping_runs_back_to_back active). repeat constructor. Defined.

(** Three messages with fragments, one of them with a chunk as well. *)
Lemma fragments_accumulate_witness :
  let ms := [(hi, clock 0 1000); (hello, clock 0 1001);
             (audio "AAAAAAAA", clock 0 1002); (hi, clock 0 1003)] in
  transcriptionBufferRef (run active (messageEvents ms))
  = {| tb_user := [] ++ userFragments ms; tb_model := [] ++ modelFragments ms |}
  /\ userFragments ms = lit "HiHi" /\ modelFragments ms = lit "Hello".
Proof.
  intros ms.
  destruct (fragments_accumulate ms active) as (Htb & _).
  - repeat constructor.
  - split; [exact Htb|]. split; reflexivity.
Defined.

(** A turn of blanks and a line feed. *)
Lemma blank_turn_appends_nothing_witness :
  let blank := msg {| inputTranscription := Some {| tr_text := [32; 10; 32]%N |};
                      outputTranscription := None; turnComplete := false;
                      modelTurn := None; interrupted := false |} in
  let s := onmessage blank (clock 0 1000) active in
  messages (onmessage turnCompleteOnly (clock 0 1001) s) = messages s
  /\ transcriptionBufferRef (onmessage turnCompleteOnly (clock 0 1001) s) = emptyBuffer.
Proof.
  intros blank s.
  destruct (blank_turn_appends_nothing (clock 0 1001) s) as [Hiff Hreset].
  split; [|exact Hreset].
  apply Hiff. split; repeat constructor.
Defined.

(** A turn with a payload that does not decode, before any start. *)
Lemma audio_without_contexts_witness :
  let none := {| decode := fun _ => None; decodeAudioData := fun _ _ _ => None |} in
  @onmessage utils hiTurnMalformed (clock 5 1000) initial
  = @onmessage none hiTurnMalformed (clock 5 1000) initial
  /\ nextStartTimeRef (@onmessage utils hiTurnMalformed (clock 5 1000) initial) = 0
  /\ browser (@onmessage utils hiTurnMalformed (clock 5 1000) initial) = browser initial.
Proof.
  intros none.
  destruct (audio_without_contexts utils none hiTurnMalformed (clock 5 1000) initial)
    as [Hno _].
  destruct (Hno eq_refl) as (_ & Hsame & _ & Hcalm).
  destruct (Hcalm eq_refl) as (Hc & _ & Hb).
  split; [exact Hsame|]. split; [exact Hc | exact Hb].
Defined.

(** The session that plays two chunks, as reached from the initial state. *)
Lemma reachable_wellFormed_witness :
  let evs := [Click granted; StreamOpen; SessionResolved;
              StreamMessage (audio "AAAAAAAA") (clock 0 1000);
              StreamMessage (audio "AAAAAAAA") (clock (1 # 24000) 1001)] in
  exists n, nodes (browser (run initial evs)) !! 1%nat = Some n
            /\ node_stop n = Some (try_stop n)
            /\ nodes (browser (stopAudio (run initial evs))) !! 1%nat = Some (try_stop n)
            /\ sn_state (try_stop n) <> Started.
Proof.
  intros evs.
  destruct (reachable_wellFormed evs) as [_ Hstop].
  apply (Hstop 1%nat). in_set.
Defined.

(** An error, a close and the end of a source on the playing session. *)
Lemma nothing_released_without_the_button_witness :
  let evs := [StreamError; SourceEnded 0; StreamClose;
              StreamMessage interruption (clock 0 1000)] in
  (mediaStreams (browser playing) <= mediaStreams (browser (run playing evs)))%nat
  /\ (exists new, sessions (browser (run playing evs)) = sessions (browser playing) ++ new)
  /\ contexts (browser (run playing evs)) = contexts (browser playing).
Proof.
  intros evs.
  destruct (nothing_released_without_the_button playing evs) as [Hmic Hclose].
  split; [exact Hmic|]. apply Hclose. repeat constructor.
Defined.

(** "Hi" said, then the session stopped and started again. *)
Lemma text_survives_sessions_witness :
  let s := onmessage hi (clock 0 1000) active in
  let evs := [Click granted; Click granted; StreamOpen; SessionResolved] in
  status (run s evs) = ACTIVE
  /\ sessionRef (run s evs) = Some 1%nat
  /\ messages (run s evs) = messages s
  /\ transcriptionBufferRef (run s evs) = {| tb_user := lit "Hi"; tb_model := [] |}.
Proof.
  intros s evs.
  destruct (text_survives_sessions s evs) as [Hlog Htb].
  - repeat constructor.
  - split; [reflexivity|]. split; [reflexivity|]. split; [exact Hlog | exact Htb].
Defined.

(** A start on the stopped session whose microphone is refused: the press
    gives [CONNECTING], the refusal [ERROR]; and a stop press on the active
    session. *)
Lemma status_entered_by_witness :
  let pressed := occur (stopped, 0%nat) (Press true) in
  (status pressed.1 = CONNECTING /\ pressed.2 = 1%nat)
  /\ status (occur pressed (MicrophoneAnswer false)).1 = ERROR
  /\ (status pressed.1 = ERROR
      \/ MicrophoneAnswer false = Callback StreamError
      \/ MicrophoneAnswer false = Callback SessionRejected
      \/ (MicrophoneAnswer false = Press false /\ status pressed.1 = IDLE)
      \/ (MicrophoneAnswer false = MicrophoneAnswer false /\ (0 < pressed.2)%nat))
  /\ (status active = IDLE \/ Press true = Callback StreamClose
      \/ exists hasKey, Press true = Press hasKey /\ status active = ACTIVE).
Proof.
  intros pressed.
  destruct (status_entered_by (stopped, 0%nat) (Press true))
    as (_ & _ & _ & _ & _ & _ & Hpress & _).
  destruct (status_entered_by pressed (MicrophoneAnswer false))
    as (_ & _ & Herr & _ & _ & _ & _ & Hrefused).
  destruct (status_entered_by (active, 0%nat) (Press true)) as (_ & _ & _ & Hidle & _).
  split; [apply Hpress; [reflexivity | left; reflexivity]|].
  split; [apply Hrefused; [reflexivity | vm_compute; lia]|].
  split; [apply Herr; vm_compute; reflexivity|].
  apply Hidle. reflexivity.
Defined.

(** A chunk, a barge-in while it is being decoded, the end of the decoding. *)
Lemma interruption_misses_pending_chunk_witness :
  let overlapped := acts (active, [])
                      [Arrive (audio "AAAAAAAA") (clock 3 1000);
                       Arrive interruption (clock 3 1001); Settle 0] in
  let inOrder := run active [StreamMessage (audio "AAAAAAAA") (clock 3 1000);
                             StreamMessage interruption (clock 3 1001)] in
  (sourcesRef overlapped.1 = {[ 0%nat ]}
   /\ nodes (browser overlapped.1) !! 0%nat = Some (startedNode (0, fourFrames))
   /\ nextStartTimeRef overlapped.1 = 0 + duration fourFrames
   /\ overlapped.2 = [])
  /\ (sourcesRef inOrder = ∅
      /\ (sn_state <$> nodes (browser inOrder) !! 0%nat) = Some Stopped
      /\ nextStartTimeRef inOrder = 0).
Proof.
  apply (interruption_misses_pending_chunk (audio "AAAAAAAA") interruption
           (clock 3 1000) (clock 3 1001) fourFrames active);
    solve [ by eexists | reflexivity ].
Defined.

(** Two chunks and a turn, the second chunk decoded first. *)
Lemma calm_runs_only_advance_witness :
  let s' := (acts (playing, [])
               [Arrive (audio "AAAAAAAA") (clock 1 1000);
                Arrive hiTurnWithAudio (clock 2 1001); Settle 1; Settle 0]).1 in
  nextStartTimeRef playing <= nextStartTimeRef s'
  /\ sourcesRef playing ⊆ sourcesRef s'
  /\ (length (nodes (browser playing)) <= length (nodes (browser s')))%nat.
Proof. apply (calm_runs_only_advance playing). repeat constructor. Defined.

(** The view of the initial state and of a start that was refused. *)
Lemma view_and_button_witness :
  let refused := run initial [Click {| apiKey := true; microphone := false |}] in
  render refused
  = {| v_pulse := false; v_status := "ERROR"; v_bubbles := None; v_rings := false;
       v_onClick := Start; v_disabled := false; v_rose := false;
       v_icon := Microphone; v_caption := TapTheMic |}
  /\ v_icon (render active) = StopSquare
  /\ press (render active) granted active = handleStopSession active.
Proof.
  intros refused.
  destruct (view_and_button granted active) as (Hpress & Hicon & _).
  destruct (view_and_button granted initial) as (_ & _ & _ & _ & Herr & _).
  split; [|split].
  - apply (Herr initial refused); reflexivity.
  - apply Hicon. split; reflexivity.
  - exact Hpress.
Defined.

(** A chunk five seconds after the start, nothing scheduled before. *)
Lemma late_chunk_starts_at_the_clock_witness :
  let s' := onmessage (audio "AAAAAAAA") (clock 5 1000) playing in
  nodes (browser s') = nodes (browser playing) ++ [startedNode (5, fourFrames)]
  /\ nextStartTimeRef s' = 5 + duration fourFrames
  /\ nodes (browser (onmessage (audio "AAAAAAAA") (clock 5 1000) (stopAudio playing)))
       !! 2%nat = Some (startedNode (5, fourFrames)).
Proof.
  intros s'.
  destruct (late_chunk_starts_at_the_clock (audio "AAAAAAAA") (clock 5 1000)
              fourFrames playing) as (Hn & Ht & Hstop).
  - by eexists.
  - split; reflexivity.
  - reflexivity.
  - split; [exact Hn|]. split; [exact Ht|]. apply Hstop. reflexivity.
Defined.

(** A payload that does not decode at clock 1, a good one at clock 2. *)
Lemma dropped_chunk_leaves_schedule_witness :
  exists w w',
    nodes (browser (run active [StreamMessage hiTurnMalformed (clock 1 1000);
                                StreamMessage (audio "AAAAAAAA") (clock 2 1001)]))
    = nodes (browser active) ++ [startedNode (w, fourFrames)]
    /\ nodes (browser (run active [StreamMessage (withoutPayload hiTurnMalformed)
                                     (clock 1 1000);
                                   StreamMessage (audio "AAAAAAAA") (clock 2 1001)]))
       = nodes (browser active) ++ [startedNode (w', fourFrames)]
    /\ w == w'.
Proof.
  destruct (dropped_chunk_leaves_schedule hiTurnMalformed (audio "AAAAAAAA")
              (clock 1 1000) (clock 2 1001) fourFrames active)
    as (w & w' & Hn & Hn' & Hw & _).
  - by eexists.
  - exists (lit "AA!A"). repeat split.
  - reflexivity.
  - split; reflexivity.
  - vm_compute. discriminate.
  - exists w, w'. split; [exact Hn|]. split; [exact Hn' | exact Hw].
Defined.

(** The stop button on the session that plays two chunks. *)
Lemma stop_releases_what_is_held_witness :
  let evs := [Click granted; StreamOpen; SessionResolved;
              StreamMessage (audio "AAAAAAAA") (clock 0 1000);
              StreamMessage (audio "AAAAAAAA") (clock (1 # 24000) 1001)] in
  let s' := step (run initial evs) (Click granted) in
  status s' = IDLE
  /\ closeCalls (sessions (browser s')) 0 = S (closeCalls (sessions (browser (run initial evs))) 0)
  /\ (closeCalls (contexts (browser s')) 0
      = S (closeCalls (contexts (browser (run initial evs))) 0)
      /\ closeCalls (contexts (browser s')) 1
         = S (closeCalls (contexts (browser (run initial evs))) 1))
  /\ (exists n, nodes (browser s') !! 1%nat = Some n /\ sn_state n <> Started).
Proof.
  intros evs s'.
  assert (Hact : status (run initial evs) = ACTIVE) by (vm_compute; reflexivity).
  destruct (stop_releases_what_is_held evs granted Hact)
    as (Hst & _ & _ & Hse & Hac & Hso & _).
  split; [exact Hst|].
  split; [apply Hse; vm_compute; reflexivity|].
  split; [apply Hac; vm_compute; reflexivity|].
  apply Hso. in_set.
Defined.

(** A stream error, then the stream closing, while two chunks are scheduled. *)
Lemma audio_plays_on_witness :
  let evs := [StreamError; StreamClose; StreamMessage hi (clock 9 1000)] in
  sourcesRef playing ⊆ sourcesRef (run playing evs)
  /\ exists n', nodes (browser (run playing evs)) !! 0%nat = Some n'
                /\ playsOn {| sn_buffer := fourFrames; sn_when := 0; sn_state := Started |} n'.
Proof.
  intros evs.
  destruct (audio_plays_on playing evs) as [Hs Hn].
  - repeat constructor.
  - split; [exact Hs|]. apply Hn. reflexivity.
Defined.
